(** * Python-vs-Cpp: the C++ practice programs

  A shallow embedding of programs of the repository:
  - [cpp/no_ai_practice/words_frequency.cpp], the word-frequency counter;
  - [cpp/multithreading/example1.cpp], two threads and a mutex;
  - [cpp/Examn_objective/Sendthis/Task1/CsvInOut.cpp], the class
    [CsvClass]: its zero-value filter, and reading and writing the file;
  - [cpp/Examn_objective/Task1/main.cpp] and [test.cpp], the program that
    uses the class and the trial of its selection loop.

  Conventions.  A [std::string] is a [list ascii] (its bytes, in order);
  an [unsigned char] is read off an [ascii] with [N_of_ascii]; the [int]
  values of the frequency map are [Z] with the 32-bit wrap-around written
  out; a [std::unordered_map<std::string, int>] is a [gmap]; a
  [std::vector] indexed with [operator[]] is a list with stdpp's lookup
  and insert.  The classification functions of [<cctype>] are those of
  the "C" locale, the only one the programs run in (they never call
  [setlocale]). *)

From Equations Require Import Equations.
From Stdlib Require Import ZArith Ascii String Lia.
From Stdlib Require Uint63 PrimFloat DecimalString.
From stdpp Require Import gmap list sorting pretty.

Open Scope Z_scope.

(** ** Characters *)

Module CType.

Definition code (c : ascii) : N := N_of_ascii c.

(** [std::isspace]: space, and the controls [\t \n \v \f \r]. *)
Definition isspace (c : ascii) : bool :=
  ((code c =? 32) || ((9 <=? code c) && (code c <=? 13)))%N.

(** [std::ispunct]: the printing characters that are neither space nor
    alphanumeric. *)
Definition ispunct (c : ascii) : bool :=
  (((33 <=? code c) && (code c <=? 47))
   || ((58 <=? code c) && (code c <=? 64))
   || ((91 <=? code c) && (code c <=? 96))
   || ((123 <=? code c) && (code c <=? 126)))%N.

Definition isupper (c : ascii) : bool :=
  ((65 <=? code c) && (code c <=? 90))%N.

(** [std::tolower], converted back to [char] by [std::transform]. *)
Definition tolower (c : ascii) : ascii :=
  if isupper c then ascii_of_N (code c + 32) else c.

End CType.

Import CType.

(** A string literal as a [std::string]. *)
Notation "'str' s" := (list_ascii_of_string s) (at level 9, s at level 0, only parsing).

(** ** Fixed-width integers *)

Definition INT_MAX : Z := 2147483647.
Definition INT_MIN : Z := -2147483648.

(** The value an [int] holds after an arithmetic result [z], two's
  complement. *)
Definition wrap_int (z : Z) : Z := (z + 2 ^ 31) mod 2 ^ 32 - 2 ^ 31.

(** ** words_frequency.cpp: [parse] *)

Module WordsFrequency.

(** The unread characters of a [std::stringstream]. *)
Abbreviation stream := (list ascii).
Abbreviation word_map := (gmap (list ascii) Z).

(** The sentry of formatted input: leading whitespace is dropped. *)
Fixpoint skipws (ss : stream) : stream :=
  match ss with
  | [] => []
  | c :: rest => if isspace c then skipws rest else ss
  end.

(** The characters up to the next whitespace or the end, and the rest. *)
Fixpoint get_word (ss : stream) : list ascii * stream :=
  match ss with
  | [] => ([], [])
  | c :: rest =>
      if isspace c then ([], ss)
      else let '(w, rest') := get_word rest in (c :: w, rest')
  end.

(** [ss >> word]: [None] when the stream ends before a character was
    found (the stream is then in a failed state and the loop ends). *)
Definition extract (ss : stream) : option (list ascii * stream) :=
  match skipws ss with
  | [] => None
  | c :: rest => Some (get_word (c :: rest))
  end.

(** [std::remove_if(first, last, p)] over a whole buffer: the kept
    characters are moved to the front, in order; the result is the
    buffer and the new logical end. *)
Definition remove_if (p : ascii → bool) (buf : list ascii) : list ascii * nat :=
  foldl (λ '(b, first) i,
           match b !! i with
           | Some c => if p c then (b, first) else (<[first := c]> b, S first)
           | None => (b, first)
           end)
        (buf, 0%nat) (seq 0 (length buf)).

(** [s.erase(s.begin() + first, s.begin() + last)]. *)
Definition erase (buf : list ascii) (first last : nat) : list ascii :=
  take first buf ++ drop last buf.

(** [std::transform(first, last, first, f)] over a whole buffer. *)
Definition transform (f : ascii → ascii) (buf : list ascii) : list ascii :=
  foldl (λ b i, match b !! i with
                | Some c => <[i := f c]> b
                | None => b
                end)
        buf (seq 0 (length buf)).

(** Lines 48 and 49: what the loop body does to [word] before counting. *)
Definition clean (word : list ascii) : list ascii :=
  let '(buf, new_end) := remove_if ispunct word in
  let word := erase buf new_end (length buf) in
  transform tolower word.

(** Line 50, [map[word] += 1]: a missing key starts at 0. *)
Definition increment (map : word_map) (word : list ascii) : word_map :=
  <[word := wrap_int (default 0 (map !! word) + 1)]> map.

Lemma skipws_length ss : (length (skipws ss) ≤ length ss)%nat.
Proof. induction ss as [|c r IH]; simpl; [lia|]. destruct (isspace c); simpl; lia. Qed.

Lemma get_word_length ss :
  (length (get_word ss).1 + length (get_word ss).2 = length ss)%nat.
Proof.
  induction ss as [|c r IH]; simpl; [done|].
  destruct (isspace c); simpl; [done|].
  destruct (get_word r) as [w r']; simpl in *; lia.
Qed.

Lemma skipws_head ss c rest : skipws ss = c :: rest → isspace c = false.
Proof.
  induction ss as [|d ss IH]; simpl; [done|].
  destruct (isspace d) eqn:Ed; [done|]. by intros [= <- _].
Qed.

Lemma extract_shorter ss word ss' :
  extract ss = Some (word, ss') → (length ss' < length ss)%nat.
Proof.
  unfold extract. pose proof (skipws_length ss) as Hs.
  destruct (skipws ss) as [|c r] eqn:E; [done|].
  apply skipws_head in E.
  pose proof (get_word_length (c :: r)) as Hl. revert Hl.
  simpl. rewrite E. destruct (get_word r) as [w r'].
  intros Hl [= <- <-]. simpl in *. lia.
Qed.

Definition inspect {A} (a : A) : {b | a = b} := exist _ a eq_refl.

(** Lines 47 to 51: the loop of [parse]. *)
Equations parse_loop (map : word_map) (ss : stream) : word_map
  by wf (length ss) lt :=
  parse_loop map ss with inspect (extract ss) := {
    | exist _ None _ => map
    | exist _ (Some (word, ss')) E => parse_loop (increment map (clean word)) ss' }.
Next Obligation. intros. eapply extract_shorter, E. Qed.

Definition parse (map : word_map) (text : list ascii) : word_map :=
  parse_loop map text.


(** ** words_frequency.cpp: [read_file] *)

(** The exceptions the program throws by itself.  Running out of memory
    is outside the model; paths that open and cannot be seeked, on which
    [resize] throws, are in [WordsFrequencyFiles]. *)
Inductive exception : Type :=
| runtime_error (what : list ascii).

(** A call returns or leaves with an exception. *)
Inductive outcome (A : Type) : Type :=
| Return (a : A)
| Throw (e : exception).
Arguments Return {A} a.
Arguments Throw {A} e.

(** The regular files of the machine: the bytes of a path that can be
    opened for reading, [None] for a path that cannot. *)
Abbreviation filesystem := (list ascii → option (list ascii)).

(** A [std::ifstream] in binary mode: the bytes of the file, the get
    position, and whether the stream is in a failed state. *)
Record ifstream : Type := Ifstream {
  contents : list ascii;
  gpos : nat;
  failed : bool
}.

(** [std::ifstream file(path, std::ios::binary)]. *)
Definition ifstream_open (fs : filesystem) (path : list ascii) : ifstream :=
  match fs path with
  | Some bytes => Ifstream bytes 0 false
  | None => Ifstream [] 0 true
  end.

(** [file.seekg(0, std::ios::end)] and [file.seekg(0, std::ios::beg)]:
    nothing moves on a failed stream; on a regular file the seek
    succeeds. *)
Definition seekg_end (file : ifstream) : ifstream :=
  if failed file then file
  else Ifstream (contents file) (length (contents file)) false.

Definition seekg_beg (file : ifstream) : ifstream :=
  if failed file then file else Ifstream (contents file) 0 false.

(** [file.tellg()]: the position, or -1 on a failed stream. *)
Definition tellg (file : ifstream) : Z :=
  if failed file then -1 else Z.of_nat (gpos file).

(** [static_cast<size_t>(z)] on a 64-bit machine. *)
Definition to_size_t (z : Z) : nat := Z.to_nat (z mod 2 ^ 64).

(** [data.resize(n)]: cut, or fill up with NUL characters. *)
Definition resize (data : list ascii) (n : nat) : list ascii :=
  take n data ++ replicate (n - length data) Ascii.zero.

(** [file.read(&data[0], n)]: up to [n] bytes go from the get position
    into the front of the buffer; fewer than [n] is a failure. *)
Definition read (file : ifstream) (data : list ascii) (n : nat)
  : list ascii * ifstream :=
  if failed file then (data, file)
  else
    let got := take n (drop (gpos file) (contents file)) in
    (got ++ drop (length got) data,
     Ifstream (contents file) (gpos file + length got)
              (length got <? n)%nat).

Definition read_file (fs : filesystem) (path : list ascii)
  : outcome (list ascii) :=
  let file := ifstream_open fs path in
  if failed file then Throw (runtime_error (str "cannot open file"))
  else
    let file := seekg_end file in
    let data := resize [] (to_size_t (tellg file)) in
    let file := seekg_beg file in
    let '(data, file) := read file data (length data) in
    Return data.

(** ** words_frequency.cpp: [main] *)

Abbreviation entry := (list ascii * Z)%type.

(** [operator<] of [std::string]: lexicographic on the unsigned
    character values, a proper prefix first. *)
Fixpoint string_lt (a b : list ascii) : bool :=
  match a, b with
  | _, [] => false
  | [], _ :: _ => true
  | c :: a', d :: b' =>
      if (code c <? code d)%N then true
      else if (code d <? code c)%N then false
      else string_lt a' b'
  end.

(** The comparator handed to [std::sort], lines 66 to 69. *)
Definition by_frequency (a b : entry) : bool :=
  if negb (a.2 =? b.2) then b.2 <? a.2 else string_lt a.1 b.1.

(** [std::sort].  The standard fixes its result up to the order of
    equivalent elements only; the model is insertion sort, which is what
    libstdc++ runs on short ranges.  For a comparator that is a strict
    total order the choice of algorithm is immaterial
    ([std_sort_unique] below). *)
Fixpoint insert_sorted {A} (comp : A → A → bool) (x : A) (l : list A) : list A :=
  match l with
  | [] => [x]
  | y :: l' => if comp x y then x :: l else y :: insert_sorted comp x l'
  end.

Definition std_sort {A} (comp : A → A → bool) (vec : list A) : list A :=
  foldl (λ sorted x, insert_sorted comp x sorted) [] vec.

(** [std::cout << n] for an [int]. *)
Definition show_int (n : Z) : list ascii := list_ascii_of_string (pretty n).

Definition endl : list ascii := ["010"%char].

(** Line 72. *)
Definition print_entry (element : entry) : list ascii :=
  element.1 ++ str ": " ++ show_int element.2 ++ endl.

(** [map.reserve(n)] sizes the bucket array; the entries stay. *)
Definition reserve (n : nat) (map : word_map) : word_map := map.

Definition test_file : list ascii := str "./words_frequency_test_file.txt".

Section Main.

(** The order in which iterating from [map.begin()] to [map.end()] hands
    out the entries of an unordered map is up to the hash function and
    the bucket count. *)
Variable iterate : word_map → list entry.

(** What [main] writes to the standard output, or the exception that
    ends it. *)
Definition main (fs : filesystem) : outcome (list ascii) :=
  match read_file fs test_file with
  | Throw e => Throw e
  | Return text =>
      let estimated_words := (length (List.filter (Ascii.eqb " ") text) + 1)%nat in
      let map := reserve estimated_words ∅ in
      let map := parse map text in
      let vec := iterate map in
      let vec := std_sort by_frequency vec in
      Return (concat (print_entry <$> vec))
  end.

End Main.

(** An iteration order is admissible when it hands out every entry of the
    map once. *)
Definition admissible (iterate : word_map → list entry) : Prop :=
  ∀ map, iterate map ≡ₚ map_to_list map.

(** ** The words of a text, in the words of the specification *)

(** The whitespace-separated tokens of a text: its maximal runs of
    characters that are not whitespace.  [cur] is the run being read, last
    character first. *)
Fixpoint split_ws (cur : list ascii) (text : list ascii) : list (list ascii) :=
  match text with
  | [] => match cur with [] => [] | _ => [rev cur] end
  | c :: rest =>
      if isspace c then
        match cur with
        | [] => split_ws [] rest
        | _ => rev cur :: split_ws [] rest
        end
      else split_ws (c :: cur) rest
  end.

Definition tokens (text : list ascii) : list (list ascii) := split_ws [] text.

(** Normalization: punctuation removed, the rest in lower case. *)
Definition strip (w : list ascii) : list ascii :=
  List.filter (λ c, negb (ispunct c)) w.

Definition lower (w : list ascii) : list ascii := List.map tolower w.

Definition normalize (w : list ascii) : list ascii := lower (strip w).

(** How many tokens of the text normalize to [w]. *)
Definition occurrences (w : list ascii) (text : list ascii) : nat :=
  length (List.filter (λ t, bool_decide (normalize t = w)) (tokens text)).

(** How many of the words [ws] are [w]. *)
Definition count_of (w : list ascii) (ws : list (list ascii)) : nat :=
  length (List.filter (λ t, bool_decide (t = w)) ws).

(** [x] may stand before [y] in a range sorted with [comp]: [y] does not
    have to come first. *)
Definition ordered {A} (comp : A → A → bool) (x y : A) : Prop := comp y x = false.

(** The file system with one file. *)
Definition one_file (path bytes : list ascii) : filesystem :=
  λ p, if bool_decide (p = path) then Some bytes else None.

End WordsFrequency.

(** ** multithreading/example1.cpp *)

(** The program as the set of its interleavings: [main] and the two
    threads are three actors, one of them moves at a time, in any order.
    The read and the write of [++myAmount] are two steps, so the model
    has the runs in which the accesses of the two threads alternate,
    wherever the mutex does not forbid them. *)

Module Multithreading.

(** Where a thread that runs [addMoney] stands: before [m.lock()], before
    the read of [myAmount], before the write of the incremented value,
    before [m.unlock()], or returned.  [++myAmount] on a plain [int] is a
    read and a write; nothing but the mutex makes it one step. *)
Inductive pc : Type := AtLock | AtLoad | AtStore | AtUnlock | Returned.

(** A thread: its place in [addMoney] and the value it has read. *)
Record thread : Type := Thread { at_pc : pc; reg : Z }.

(** Where [main] stands: lines 19, 20, 22, 23, 25 and the end. *)
Inductive main_pc : Type := Spawn1 | Spawn2 | Join1 | Join2 | Check | Exit.

Inductive actor : Type := Main | T1 | T2.

Record state : Type := State {
  myAmount : Z;
  m : option actor;          (* the thread that holds the mutex *)
  main_at : main_pc;
  t1 : option thread;        (* [None] until the thread is created *)
  t2 : option thread;
  out : list ascii           (* what has been written to [cout] *)
}.

Definition init : state := State 0 None Spawn1 None None [].

(** One step of [addMoney] run by thread [me]: the new thread state, the
    new value of [myAmount] and the new holder of the mutex.  A thread
    that asks for a held mutex has no step. *)
Definition addMoney (me : actor) (th : thread) (amount : Z) (mutex : option actor)
  : option (thread * Z * option actor) :=
  match at_pc th with
  | AtLock =>
      match mutex with
      | None => Some (Thread AtLoad (reg th), amount, Some me)
      | Some _ => None
      end
  | AtLoad => Some (Thread AtStore amount, amount, mutex)
  | AtStore => Some (Thread AtUnlock (reg th), wrap_int (reg th + 1), mutex)
  | AtUnlock => Some (Thread Returned (reg th), amount, None)
  | Returned => None
  end.

Definition joinable (t : option thread) : bool :=
  match t with
  | Some (Thread Returned _) => true
  | _ => false
  end.

Definition message (amount : Z) : list ascii :=
  (if amount =? 2
   then str "2 means that t1 and t2 both updated sequencially :  "
   else str "1 means that t1 and t2 are in race condition to change myAmount which is unwanted behavior : ")
  ++ WordsFrequency.show_int amount ++ WordsFrequency.endl.

(** One step of the program, taken by [a]; [None] when [a] cannot move. *)
Definition step (a : actor) (s : state) : option state :=
  match a with
  | Main =>
      match main_at s with
      | Spawn1 => Some (State (myAmount s) (m s) Spawn2 (Some (Thread AtLock 0)) (t2 s) (out s))
      | Spawn2 => Some (State (myAmount s) (m s) Join1 (t1 s) (Some (Thread AtLock 0)) (out s))
      | Join1 => if joinable (t1 s)
                 then Some (State (myAmount s) (m s) Join2 (t1 s) (t2 s) (out s))
                 else None
      | Join2 => if joinable (t2 s)
                 then Some (State (myAmount s) (m s) Check (t1 s) (t2 s) (out s))
                 else None
      | Check => Some (State (myAmount s) (m s) Exit (t1 s) (t2 s)
                             (out s ++ message (myAmount s)))
      | Exit => None
      end
  | T1 =>
      th ← t1 s;
      '(th', amount, mutex) ← addMoney T1 th (myAmount s) (m s);
      Some (State amount mutex (main_at s) (Some th') (t2 s) (out s))
  | T2 =>
      th ← t2 s;
      '(th', amount, mutex) ← addMoney T2 th (myAmount s) (m s);
      Some (State amount mutex (main_at s) (t1 s) (Some th') (out s))
  end.

(** A schedule is the list of actors in the order they move. *)
Fixpoint run (schedule : list actor) (s : state) : option state :=
  match schedule with
  | [] => Some s
  | a :: rest => s' ← step a s; run rest s'
  end.

Definition reachable (s : state) : Prop := ∃ schedule, run schedule init = Some s.

(** How many times [myAmount] has been written. *)
Definition increments (t : option thread) : Z :=
  match t with
  | Some (Thread AtUnlock _) | Some (Thread Returned _) => 1
  | _ => 0
  end.

Definition in_critical_section (t : option thread) : bool :=
  match t with
  | Some (Thread AtLoad _) | Some (Thread AtStore _) | Some (Thread AtUnlock _) => true
  | _ => false
  end.

(** The thread that is between [m.lock()] and [m.unlock()], if any. *)
Definition holder (s : state) : option actor :=
  if in_critical_section (t1 s) then Some T1
  else if in_critical_section (t2 s) then Some T2
  else None.

(** A thread about to write has read the current value. *)
Definition read_is_current (amount : Z) (t : option thread) : Prop :=
  match t with
  | Some (Thread AtStore r) => r = amount
  | _ => True
  end.

(** Which threads exist, and have returned, at each place of [main]. *)
Definition threads_at (s : state) : Prop :=
  match main_at s with
  | Spawn1 => t1 s = None ∧ t2 s = None
  | Spawn2 => is_Some (t1 s) ∧ t2 s = None
  | Join1 => is_Some (t1 s) ∧ is_Some (t2 s)
  | Join2 => joinable (t1 s) = true ∧ is_Some (t2 s)
  | Check | Exit => joinable (t1 s) = true ∧ joinable (t2 s) = true
  end.

(** What holds in every state the program can be in. *)
Definition invariant (s : state) : Prop :=
  myAmount s = increments (t1 s) + increments (t2 s)
  ∧ m s = holder s
  ∧ in_critical_section (t1 s) && in_critical_section (t2 s) = false
  ∧ read_is_current (myAmount s) (t1 s)
  ∧ read_is_current (myAmount s) (t2 s)
  ∧ threads_at s
  ∧ out s = match main_at s with Exit => message 2 | _ => [] end.

(** The steps a thread, and the program, still have to take. *)
Definition thread_steps_left (t : option thread) : nat :=
  match t with
  | None | Some (Thread AtLock _) => 4
  | Some (Thread AtLoad _) => 3
  | Some (Thread AtStore _) => 2
  | Some (Thread AtUnlock _) => 1
  | Some (Thread Returned _) => 0
  end.

Definition steps_left (s : state) : nat :=
  (match main_at s with
   | Spawn1 => 5 | Spawn2 => 4 | Join1 => 3 | Join2 => 2 | Check => 1 | Exit => 0
   end + thread_steps_left (t1 s) + thread_steps_left (t2 s))%nat.

End Multithreading.

(** ** Examn_objective/Sendthis/Task1/CsvInOut.cpp: [CsvClass::FilterData] *)

Module CsvInOut.

(** [for (int x = first; x < last; ++x) body], the state threaded
    through; a body with undefined behaviour ([None]) ends everything. *)
Fixpoint for_range {S} (first count : nat) (body : nat → S → option S) (s : S)
  : option S :=
  match count with
  | O => Some s
  | Datatypes.S k => s' ← body first s; for_range (Datatypes.S first) k body s'
  end.

Definition for_loop {S} (first last : nat) (body : nat → S → option S) (s : S)
  : option S :=
  for_range first (last - first) body s.

Section Filter.

(** The type [double] and the operations the function uses on it:
    [==], [<], [+], [/] and the conversion of an [int]. *)
Context {double : Type}.
Variables (feq flt : double → double → bool).
Variables (fadd fdiv : double → double → double).
Variable of_int : Z → double.

Abbreviation Array := (list (list double)).

(** [a[m][n]] as a value: indexing past the end is undefined behaviour. *)
Definition at2 (a : Array) (m n : nat) : option double :=
  row ← a !! m; row !! n.

(** [a[m][n] = v]. *)
Definition assign2 (a : Array) (m n : nat) (v : double) : option Array :=
  row ← a !! m; _ ← row !! n; Some (<[m := <[n := v]> row]> a).

(** Lines 85 to 93: the neighbours of a cell go to [Window], the indexes
    of those that are zero to [ZStack]. *)
Definition collect (FData : Array) (MinM MaxM MinN MaxN : nat)
  : option (list (nat * nat) * list double) :=
  for_loop MinM MaxM
    (λ m, for_loop MinN MaxN
       (λ n '(ZStack, Window),
          v ← at2 FData m n;
          Some (if feq v (of_int 0) then ZStack ++ [(m, n)] else ZStack,
                Window ++ [v])))
    ([], []).

(** Lines 100 to 103: the index of a least element from [e] on. *)
Definition min_from (Window : list double) (e : nat) : option nat :=
  for_loop (S e) (length Window)
    (λ k min,
       wk ← Window !! k; wmin ← Window !! min;
       Some (if flt wk wmin then k else min))
    e.

(** Lines 100 to 106: one pass of the selection sort. *)
Definition select (e : nat) (Window : list double) : option (list double) :=
  min ← min_from Window e;
  temp ← Window !! e;
  wmin ← Window !! min;
  Some (<[min := temp]> (<[e := wmin]> Window)).

(** Lines 97 to 116. *)
Definition median (Window : list double) : option double :=
  let mid := ((length Window + 1) / 2)%nat in
  Window ← for_loop 0 (S mid) select Window;
  if negb (length Window mod 2 =? 0)%nat then Window !! mid
  else
    a ← Window !! (mid - 1)%nat; b ← Window !! mid;
    Some (fdiv (fadd a b) (of_int 2)).

(** Lines 120 to 123. *)
Fixpoint replace (ZStack : list (nat * nat)) (MedValue : double) (FData : Array)
  : option Array :=
  match ZStack with
  | [] => Some FData
  | ZS :: rest => FData ← assign2 FData ZS.1 ZS.2 MedValue; replace rest MedValue FData
  end.

(** The body of the general loop, lines 74 to 125, at cell [(i, j)]. *)
Definition filter_cell (i j : nat) (FData : Array) : option Array :=
  row ← FData !! i;
  let MaxM := if (i + 2 <? length FData)%nat then (i + 2)%nat else length FData in
  let MinM := if (1 <=? i)%nat then (i - 1)%nat else 0%nat in
  let MaxN := if (j + 2 <? length row)%nat then (j + 2)%nat else length row in
  let MinN := if (1 <=? j)%nat then (j - 1)%nat else 0%nat in
  '(ZStack, Window) ← collect FData MinM MaxM MinN MaxN;
  MedValue ← median Window;
  replace ZStack MedValue FData.

(** [FilterData], on the member [Data].  The indexes are [int] in the
    source and natural numbers here: the two agree on every array of
    fewer than 2^31 rows and columns. *)
Definition FilterData (Data : Array) : option Array :=
  let FData := Data in
  for_loop 0 (length FData)
    (λ i FData,
       row ← FData !! i;
       for_loop 0 (length row) (λ j, filter_cell i j) FData)
    FData.

(** All rows have [cols] cells. *)
Definition rectangular (cols : nat) (a : Array) : Prop :=
  Forall (λ row, length row = cols) a.

(** Same number of rows, and of cells in each row. *)
Definition same_shape (a b : Array) : Prop :=
  length <$> a = length <$> b.

(** The cell at [ZS] holds a value that compares equal to zero. *)
Definition is_zero_at (a : Array) (ZS : nat * nat) : Prop :=
  ∃ v, at2 a ZS.1 ZS.2 = Some v ∧ feq v (of_int 0) = true.

(** [b] has the shape of [a] and every cell of [a] that does not compare
    equal to zero is in [b] with the same value. *)
Definition preserves (a b : Array) : Prop :=
  same_shape a b
  ∧ ∀ m n v, at2 a m n = Some v → feq v (of_int 0) = false → at2 b m n = Some v.

End Filter.

(** The function on IEEE 754 binary64 numbers. *)
Definition double_of_int (z : Z) : PrimFloat.float :=
  PrimFloat.of_uint63 (Uint63.of_Z z).

Definition FilterData_double
  : list (list PrimFloat.float) → option (list (list PrimFloat.float)) :=
  FilterData PrimFloat.eqb PrimFloat.ltb PrimFloat.add PrimFloat.div double_of_int.

(** An array of small whole numbers. *)
Definition matrix (rows : list (list Z)) : list (list PrimFloat.float) :=
  List.map (List.map double_of_int) rows.

End CsvInOut.

(** ** Further notions for the word-frequency counter *)

Module WordsFrequencyMore.

Import WordsFrequency.

(** The sum of the counts of a map. *)
Definition total_count (map : word_map) : Z :=
  map_fold (λ _ n sum, n + sum) 0 map.

(** A word as [parse] stores it: no punctuation, no upper-case letter. *)
Definition is_clean (w : list ascii) : bool :=
  forallb (λ c, negb (ispunct c) && negb (isupper c)) w.

(** A text of whitespace only. *)
Definition is_blank (text : list ascii) : bool := forallb isspace text.

End WordsFrequencyMore.

(** ** Examn_objective/Task1/test.cpp: the selection loop on its own *)

Module Task1Test.

Import CsvInOut.

(** The global vector of line 8. *)
Definition Window : list Z := [7; 8; 1; 99; 10; 12; 0; 4; 5].

(** Line 12. *)
Definition mid_of (Window : list Z) : nat :=
  if (length Window mod 2 =? 0)%nat then (length Window / 2)%nat
  else (length Window / 2 + 1)%nat.

(** Lines 14 to 25: the passes of [CsvClass::FilterData], here for
    [j < mid] and on [int]s. *)
Definition order_half (Window : list Z) : option (list Z) :=
  for_loop 0 (mid_of Window) (select Z.ltb) Window.

(** What [main] prints when the global vector holds [Window0]; [None]
    if it indexes the vector past its end. *)
Definition main_on (Window0 : list Z) : option (list ascii) :=
  let mid := mid_of Window0 in
  Window ← order_half Window0;
  Some (WordsFrequency.show_int (Z.of_nat mid) ++ WordsFrequency.endl
        ++ concat ((λ i, WordsFrequency.show_int i ++ str " ") <$> Window)
        ++ WordsFrequency.endl).

Definition main : option (list ascii) := main_on Window.

End Task1Test.

(** ** CsvInOut.cpp: [ReadData], [GetData], [WriteData]; Task1/main.cpp *)

Module Task1App.

Import WordsFrequency CsvInOut.

(** [std::getline(stream, word, delim)]: the characters up to the first
    [delim], which is taken from the stream and dropped, or up to the
    end.  On a stream that is at its end nothing is read and the call
    fails. *)
Fixpoint getline_go (delim : ascii) (s : list ascii) : list ascii * list ascii :=
  match s with
  | [] => ([], [])
  | c :: rest =>
      if Ascii.eqb c delim then ([], rest)
      else let '(word, rest') := getline_go delim rest in (c :: word, rest')
  end.

Definition getline (s : list ascii) (delim : ascii)
  : option (list ascii * list ascii) :=
  match s with
  | [] => None
  | _ :: _ => Some (getline_go delim s)
  end.

Lemma getline_go_length (delim : ascii) (s : list ascii) :
  (length (getline_go delim s).2 ≤ length s)%nat.
Proof.
  induction s as [|c r IH]; simpl; [done|].
  destruct (Ascii.eqb c delim); simpl; [lia|].
  destruct (getline_go delim r). simpl in *. lia.
Qed.

Lemma getline_shorter (s : list ascii) (delim : ascii) (word rest : list ascii) :
  getline s delim = Some (word, rest) → (length rest < length s)%nat.
Proof.
  destruct s as [|c r]; [done|]. unfold getline.
  pose proof (getline_go_length delim r) as Hr. intros [= H]. revert H. simpl.
  destruct (Ascii.eqb c delim); [intros [= _ <-]; simpl; lia|].
  destruct (getline_go delim r). intros [= _ <-]. simpl in *. lia.
Qed.

Definition newline : ascii := "010"%char.

Section Csv.

(** The type [double] with the two conversions of the standard library
    that the class uses: [std::stod], [None] when it throws
    ([std::invalid_argument], [std::out_of_range]), and [operator<<] of
    an output stream. *)
Context {double : Type}.
Variable stod : list ascii → option double.
Variable show : double → list ascii.

(** Lines 23 to 25: the fields of a line go to [row]; [None] when
    [std::stod] throws. *)
Equations read_row (Delim : ascii) (row : list double) (linestream : list ascii)
  : option (list double) by wf (length linestream) lt :=
  read_row Delim row linestream with inspect (getline linestream Delim) := {
    | exist _ None _ => Some row
    | exist _ (Some (word, rest)) E with stod word := {
        | None => None
        | Some v => read_row Delim (row ++ [v]) rest } }.
Next Obligation. intros. eapply getline_shorter, E. Qed.

(** Lines 21 to 29: a row for each line of the file. *)
Equations read_lines (Delim : ascii) (Data : list (list double))
    (InputFile : list ascii)
  : option (list (list double)) by wf (length InputFile) lt :=
  read_lines Delim Data InputFile with inspect (getline InputFile newline) := {
    | exist _ None _ => Some Data
    | exist _ (Some (line, rest)) E with read_row Delim [] line := {
        | None => None
        | Some row => read_lines Delim (Data ++ [row]) rest } }.
Next Obligation. intros. eapply getline_shorter, E. Qed.

(** [CsvClass::ReadData] on the member [Data]: what it prints, and the
    new value of [Data], [None] when an exception of [std::stod] leaves
    the function. *)
Definition ReadData (fs : filesystem) (InputFilePath : list ascii) (Delim : ascii)
    (Data : list (list double))
  : list ascii * option (list (list double)) :=
  match fs InputFilePath with
  | Some bytes => (str "Input file is opened." ++ [newline],
                   read_lines Delim Data bytes)
  | None => (str "Error opening Input file." ++ [newline], Some Data)
  end.

(** [CsvClass::GetData]. *)
Definition GetData (Data : list (list double)) : list (list double) := Data.

(** Lines 49 to 52: a row of the output. *)
Definition write_row (Delimiter : ascii) (row : list double) : list ascii :=
  concat (imap (λ j v,
                  let EndLine := if (j =? length row - 1)%nat
                                 then newline else Delimiter in
                  show v ++ [EndLine])
               row).

(** The fields of a row with the delimiter between them: the line that
    [write_row] writes for a row with cells, without its newline. *)
Fixpoint line_of (Delim : ascii) (row : list double) : list ascii :=
  match row with
  | [] => []
  | [v] => show v
  | v :: row' => show v ++ Delim :: line_of Delim row'
  end.

(** A value as it has to be printed to be read back: the text is not
    empty, holds neither the delimiter nor a newline, and [std::stod]
    converts it to the value. *)
Definition reads_back (Delim : ascii) (v : double) : Prop :=
  show v ≠ [] ∧ (Delim ∉ show v) ∧ (newline ∉ show v) ∧ stod (show v) = Some v.

(** The files, and the paths at which a file can be opened for
    writing. *)
Record world : Type := World {
  files : filesystem;
  writable : list ascii → bool
}.

Definition put_file (w : world) (path content : list ascii) : world :=
  World (λ p, if bool_decide (p = path) then Some content else files w p)
        (writable w).

(** [CsvClass::WriteData]: the new files and what is printed.  Opening
    for output empties the file; a file that has been written can be
    read. *)
Definition WriteData (w : world) (data : list (list double))
    (FilePath : list ascii) (Delimiter : ascii) : world * list ascii :=
  if writable w FilePath then
    (put_file w FilePath (concat (write_row Delimiter <$> data)),
     str "Writing to output file." ++ [newline])
  else (w, str "Error in opening output file or in creating it.").

(** The operations of [FilterData]. *)
Variables (feq flt : double → double → bool).
Variables (fadd fdiv : double → double → double).
Variable of_int : Z → double.

(** How a run of [main] ends. *)
Inductive ending : Type :=
| Exits (code : Z) (stdout : list ascii) (w : world)
| Terminates (stdout : list ascii)   (* an exception nobody catches *)
| Undefined.                         (* a vector indexed past its end *)

Definition EXIT_SUCCESS : Z := 0.
Definition EXIT_FAILURE : Z := 1.

(** Task1/main.cpp, with the global object [Data] empty at the start;
    [argv] holds the name of the program and its arguments. *)
Definition main (w : world) (argv : list (list ascii)) : ending :=
  if (length argv =? 3)%nat then
    let out := str "'OK' Arguments provided." ++ [newline] in
    match argv !! 1%nat, argv !! 2%nat with
    | Some input, Some output =>
        let '(printed, Data) := ReadData (files w) input ";" [] in
        let out := out ++ printed in
        match Data with
        | None => Terminates out
        | Some Data =>
            match FilterData feq flt fadd fdiv of_int Data with
            | None => Undefined
            | Some FData =>
                let '(w, printed) := WriteData w FData output ";" in
                Exits EXIT_SUCCESS (out ++ printed) w
            end
        end
    | _, _ => Undefined
    end
  else Exits EXIT_FAILURE (str "Missing main arguments." ++ [newline]) w.

End Csv.

(** An instance for whole numbers, written and read in decimal. *)
Definition show_whole (n : Z) : list ascii := show_int n.

Definition stod_whole (word : list ascii) : option Z :=
  Z.of_int <$> DecimalString.NilZero.int_of_string (string_of_list_ascii word).

(** [main] on whole numbers. *)
Definition whole_main : world → list (list ascii) → ending :=
  main stod_whole show_whole Z.eqb Z.ltb Z.add Z.div (λ z, z).

End Task1App.

(** * words_frequency.cpp on paths that are not regular files

    [WordsFrequency.read_file] reads regular files, on which every seek
    succeeds.  A path can also open and have no position to seek to (a
    directory): then [seekg] fails, [tellg] returns -1 and [resize] is
    asked for [SIZE_MAX] characters.  This module has [read_file] and
    [main] with these paths and with the exception of [resize]. *)

Module WordsFrequencyFiles.
Import WordsFrequency.

(** What a path that can be opened for reading leads to: a regular file
    with its bytes, or something that opens but cannot be seeked. *)
Inductive node : Type :=
| Regular (bytes : list ascii)
| Unseekable.

(** The paths of the machine: [None] for a path that cannot be opened. *)
Abbreviation machine := (list ascii → option node).

(** The exceptions that leave [read_file]. *)
Inductive thrown : Type :=
| std_runtime_error (what : list ascii)
| std_length_error.

Inductive result (A : Type) : Type :=
| Returns (a : A)
| Throws (e : thrown).
Arguments Returns {A} a.
Arguments Throws {A} e.

(** A [std::ifstream] in binary mode, with whether its file can seek. *)
Record fstream : Type := Fstream {
  bytes_of : list ascii;
  get_pos : nat;
  failbit : bool;
  can_seek : bool
}.

(** [std::ifstream file(path, std::ios::binary)]. *)
Definition open_on (m : machine) (path : list ascii) : fstream :=
  match m path with
  | Some (Regular bytes) => Fstream bytes 0 false true
  | Some Unseekable => Fstream [] 0 false false
  | None => Fstream [] 0 true false
  end.

(** [file.seekg(0, std::ios::end)] and [file.seekg(0, std::ios::beg)]:
    nothing moves on a failed stream, and a stream that cannot seek
    fails. *)
Definition seekg_end_on (file : fstream) : fstream :=
  if failbit file then file
  else if can_seek file
       then Fstream (bytes_of file) (length (bytes_of file)) false true
       else Fstream (bytes_of file) (get_pos file) true false.

Definition seekg_beg_on (file : fstream) : fstream :=
  if failbit file then file
  else if can_seek file
       then Fstream (bytes_of file) 0 false true
       else Fstream (bytes_of file) (get_pos file) true false.

(** [file.tellg()]: the position, or -1 on a failed stream. *)
Definition tellg_on (file : fstream) : Z :=
  if failbit file then -1 else Z.of_nat (get_pos file).

(** [static_cast<size_t>(z)] on a 64-bit machine, as a number. *)
Definition size_t_of (z : Z) : Z := z mod 2 ^ 64.

(** [file.read(&data[0], n)]. *)
Definition read_on (file : fstream) (data : list ascii) (n : nat)
  : list ascii * fstream :=
  if failbit file then (data, file)
  else
    let got := take n (drop (get_pos file) (bytes_of file)) in
    (got ++ drop (length got) data,
     Fstream (bytes_of file) (get_pos file + length got)
             (length got <? n)%nat (can_seek file)).

Section MaxSize.

(** [std::string::max_size()], a constant of the standard library. *)
Variable max_size : Z.

(** [data.resize(n)]: [std::length_error] above [max_size()]; otherwise
    cut, or fill up with NUL characters. *)
Definition resize_on (data : list ascii) (n : Z) : result (list ascii) :=
  if max_size <? n then Throws std_length_error
  else Returns (resize data (Z.to_nat n)).

(** Lines 17 to 42. *)
Definition read_file_on (m : machine) (path : list ascii) : result (list ascii) :=
  let file := open_on m path in
  if failbit file then Throws (std_runtime_error (str "cannot open file"))
  else
    let file := seekg_end_on file in
    match resize_on [] (size_t_of (tellg_on file)) with
    | Throws e => Throws e
    | Returns data =>
        let file := seekg_beg_on file in
        let '(data, file) := read_on file data (length data) in
        Returns data
    end.

(** Lines 54 to 76; [main] catches nothing. *)
Definition main_on_machine (iterate : word_map → list entry) (m : machine)
  : result (list ascii) :=
  match read_file_on m test_file with
  | Throws e => Throws e
  | Returns text =>
      let estimated_words :=
        (length (List.filter (Ascii.eqb " ") text) + 1)%nat in
      let map := reserve estimated_words ∅ in
      let map := parse map text in
      let vec := iterate map in
      let vec := std_sort by_frequency vec in
      Returns (concat (print_entry <$> vec))
  end.

End MaxSize.

(** The machine whose paths are the regular files of a file system. *)
Definition regular_files (fs : filesystem) : machine :=
  λ path, Regular <$> fs path.

(** A machine with one path. *)
Definition one_node (name : list ascii) (n : node) : machine :=
  λ path, if decide (path = name) then Some n else None.

(** The results of the two models side by side. *)
Definition of_outcome {A} (o : outcome A) : result A :=
  match o with
  | Return a => Returns a
  | Throw (runtime_error what) => Throws (std_runtime_error what)
  end.

End WordsFrequencyFiles.

(** * Properties of the word-frequency counter *)

Import WordsFrequency.

Section Buffers.

(** ** The in-place algorithms of [<algorithm>] as list functions *)

Lemma foldl_seq_S {S} (f : S → nat → S) (s : S) (n : nat) :
  foldl f s (seq 0 (Datatypes.S n)) = f (foldl f s (seq 0 n)) n.
Proof. by rewrite seq_S, foldl_app. Qed.

Lemma filter_take_S {A} (p : A → bool) (l : list A) (k : nat) (x : A) :
  l !! k = Some x →
  List.filter p (take (S k) l) =
  List.filter p (take k l) ++ (if p x then [x] else []).
Proof.
  intros Hk. rewrite (take_S_r _ _ _ Hk), List.filter_app. simpl.
  by destruct (p x).
Qed.

Lemma length_filter_take {A} (p : A → bool) (l : list A) (k : nat) :
  (length (List.filter p (take k l)) ≤ k)%nat.
Proof.
  etrans; [apply List.filter_length_le|]. rewrite length_take. lia.
Qed.

(** After [k] rounds of [std::remove_if] the front of the buffer holds
    the characters kept so far and the rest is as it was. *)
Lemma remove_if_rounds (p : ascii → bool) (buf : list ascii) (k : nat) :
  (k ≤ length buf)%nat →
  let kept := List.filter (λ c, negb (p c)) (take k buf) in
  foldl (λ '(b, first) i,
           match b !! i with
           | Some c => if p c then (b, first) else (<[first := c]> b, S first)
           | None => (b, first)
           end)
        (buf, 0%nat) (seq 0 k)
  = (kept ++ drop (length kept) buf, length kept).
Proof.
  induction k as [|k IH]; intros Hk kept.
  { subst kept. by rewrite take_0. }
  rewrite foldl_seq_S, IH by lia. clear IH.
  destruct (lookup_lt_is_Some_2 buf k) as [c Hc]; [lia|].
  subst kept. rewrite (filter_take_S _ _ _ _ Hc).
  set (kept := List.filter _ (take k buf)).
  assert (length kept ≤ k)%nat as Hle by apply length_filter_take.
  assert ((kept ++ drop (length kept) buf) !! k = Some c) as ->.
  { rewrite lookup_app_r, lookup_drop by done.
    rewrite <-Hc. f_equal. lia. }
  destruct (p c); simpl.
  { by rewrite app_nil_r. }
  rewrite length_app. simpl. f_equal; [|lia].
  rewrite insert_app_r_alt, Nat.sub_diag by done.
  destruct (lookup_lt_is_Some_2 buf (length kept)) as [d Hd]; [lia|].
  rewrite (drop_S _ _ _ Hd). simpl.
  rewrite <-app_assoc. simpl. do 3 f_equal. lia.
Qed.

Lemma remove_if_filter (p : ascii → bool) (buf : list ascii) :
  let kept := List.filter (λ c, negb (p c)) buf in
  remove_if p buf = (kept ++ drop (length kept) buf, length kept).
Proof.
  unfold remove_if. rewrite remove_if_rounds by done. by rewrite firstn_all.
Qed.

Lemma erase_remove_if (p : ascii → bool) (word : list ascii) :
  erase (remove_if p word).1 (remove_if p word).2 (length (remove_if p word).1)
  = List.filter (λ c, negb (p c)) word.
Proof.
  rewrite remove_if_filter. simpl. unfold erase.
  rewrite take_app_length, drop_all. apply app_nil_r.
Qed.

Lemma transform_rounds (f : ascii → ascii) (buf : list ascii) (k : nat) :
  (k ≤ length buf)%nat →
  foldl (λ b i, match b !! i with
                | Some c => <[i := f c]> b
                | None => b
                end) buf (seq 0 k)
  = List.map f (take k buf) ++ drop k buf.
Proof.
  induction k as [|k IH]; intros Hk.
  { by rewrite take_0, drop_0. }
  rewrite foldl_seq_S, IH by lia. clear IH.
  destruct (lookup_lt_is_Some_2 buf k) as [c Hc]; [lia|].
  assert (length (List.map f (take k buf)) = k) as Hlen.
  { rewrite length_map, length_take. lia. }
  rewrite lookup_app_r, Hlen, Nat.sub_diag, lookup_drop, Nat.add_0_r, Hc by lia.
  rewrite insert_app_r_alt, Hlen, Nat.sub_diag by lia.
  rewrite (drop_S _ _ _ Hc), (take_S_r _ _ _ Hc), List.map_app. simpl.
  by rewrite <-app_assoc.
Qed.

Lemma transform_map (f : ascii → ascii) (buf : list ascii) :
  transform f buf = List.map f buf.
Proof.
  unfold transform. rewrite transform_rounds by done.
  by rewrite firstn_all, drop_all, app_nil_r.
Qed.

Lemma clean_normalize (word : list ascii) : clean word = normalize word.
Proof.
  unfold clean, normalize, lower, strip.
  pose proof (erase_remove_if ispunct word) as H.
  destruct (remove_if ispunct word) as [buf new_end]. simpl in H.
  by rewrite H, transform_map.
Qed.

End Buffers.

(** ** Characters *)

Lemma outside_range (lo hi x : N) :
  (x < lo ∨ hi < x)%N → ((lo <=? x) && (x <=? hi))%N = false.
Proof.
  intros H. apply andb_false_iff.
  destruct H; [left; apply N.leb_gt|right; apply N.leb_gt]; lia.
Qed.

Lemma ispunct_letter (x : N) :
  (65 ≤ x ≤ 90 ∨ 97 ≤ x ≤ 122)%N →
  (((33 <=? x) && (x <=? 47)) || ((58 <=? x) && (x <=? 64))
   || ((91 <=? x) && (x <=? 96)) || ((123 <=? x) && (x <=? 126)))%N = false.
Proof. intros H. by rewrite !outside_range by lia. Qed.

Lemma ispunct_tolower (c : ascii) : ispunct (tolower c) = ispunct c.
Proof.
  unfold tolower, isupper. destruct (_ && _)%N eqn:Hup; [|done].
  apply andb_true_iff in Hup as [H1 H2].
  apply N.leb_le in H1, H2.
  unfold ispunct.
  assert (code (ascii_of_N (code c + 32)) = (code c + 32)%N) as ->.
  { unfold code. apply N_ascii_embedding. fold (code c). lia. }
  rewrite !ispunct_letter; [done|lia..].
Qed.

Lemma lower_strip_comm (word : list ascii) :
  lower (strip word) = strip (lower word).
Proof.
  unfold lower, strip. induction word as [|c w IH]; simpl; [done|].
  rewrite ispunct_tolower. destruct (ispunct c); simpl; by rewrite IH.
Qed.

(** ** The loop of [parse] reads the tokens of the text, in order *)

Lemma split_ws_skipws (ss : list ascii) : split_ws [] ss = split_ws [] (skipws ss).
Proof.
  induction ss as [|c r IH]; simpl; [done|].
  destruct (isspace c) eqn:Ec; [done|]. simpl. by rewrite Ec.
Qed.

Lemma split_ws_get_word (ss cur : list ascii) :
  cur ≠ [] ∨ (∃ c rest, ss = c :: rest ∧ isspace c = false) →
  split_ws cur ss = (rev cur ++ (get_word ss).1) :: split_ws [] (get_word ss).2.
Proof.
  revert cur. induction ss as [|c r IH]; intros cur Hne; simpl.
  - destruct Hne as [Hne|(? & ? & ? & _)]; [|done].
    rewrite app_nil_r. by destruct cur.
  - destruct (isspace c) eqn:Ec; simpl.
    + destruct Hne as [Hne|(? & ? & [= <- _] & ?)]; [|congruence].
      rewrite Ec, app_nil_r. by destruct cur.
    + rewrite IH by (by left). destruct (get_word r) as [w r']. simpl.
      by rewrite <-app_assoc.
Qed.

Lemma tokens_extract_None (ss : list ascii) : extract ss = None → tokens ss = [].
Proof.
  unfold extract, tokens. rewrite split_ws_skipws.
  by destruct (skipws ss).
Qed.

Lemma tokens_extract_Some (ss word ss' : list ascii) :
  extract ss = Some (word, ss') → tokens ss = word :: tokens ss'.
Proof.
  unfold extract, tokens. rewrite split_ws_skipws.
  destruct (skipws ss) as [|c r] eqn:E; [done|].
  apply skipws_head in E. intros H.
  rewrite split_ws_get_word by (right; eauto).
  destruct (get_word (c :: r)) as [w r']. by simplify_eq.
Qed.

Lemma parse_loop_step (map : word_map) (ss : list ascii) :
  parse_loop map ss =
  match extract ss with
  | None => map
  | Some (word, ss') => parse_loop (increment map (clean word)) ss'
  end.
Proof.
  rewrite parse_loop_equation_1. unfold inspect.
  cut (∀ o (e : extract ss = o),
         parse_loop_unfold_clause_1 map ss (exist _ o e) =
         match o with
         | None => map
         | Some (word, ss') => parse_loop (increment map (clean word)) ss'
         end); [intros H; apply H|].
  by intros [[w s']|] e.
Qed.

Lemma parse_tokens (map : word_map) (text : list ascii) :
  parse map text = foldl increment map (normalize <$> tokens text).
Proof.
  unfold parse. remember (length text) as n eqn:Hn.
  revert map text Hn. induction (lt_wf n) as [n _ IH]; intros map text ->.
  rewrite parse_loop_step.
  destruct (extract text) as [[word ss']|] eqn:E.
  - rewrite (tokens_extract_Some _ _ _ E). simpl.
    rewrite <-clean_normalize.
    eapply IH; [|done]. by eapply extract_shorter.
  - by rewrite (tokens_extract_None _ E).
Qed.

(** ** Counting in an [int] *)

Lemma wrap_int_small (z : Z) : INT_MIN ≤ z ≤ INT_MAX → wrap_int z = z.
Proof.
  unfold INT_MIN, INT_MAX, wrap_int. intros H.
  rewrite Z.mod_small; lia.
Qed.

Lemma wrap_int_add (a b : Z) : wrap_int (wrap_int a + b) = wrap_int (a + b).
Proof.
  unfold wrap_int. f_equal.
  replace ((a + 2 ^ 31) mod 2 ^ 32 - 2 ^ 31 + b + 2 ^ 31)
    with ((a + 2 ^ 31) mod 2 ^ 32 + b) by lia.
  rewrite Zplus_mod_idemp_l. f_equal. lia.
Qed.

Lemma lookup_foldl_increment (ws : list (list ascii)) (map : word_map) (w : list ascii) :
  foldl increment map ws !! w =
  if (count_of w ws =? 0)%nat then map !! w
  else Some (wrap_int (default 0 (map !! w) + Z.of_nat (count_of w ws))).
Proof.
  revert map. induction ws as [|t ws IH]; intros map; simpl; [done|].
  rewrite IH. unfold count_of at 3 4. simpl. unfold increment.
  case_bool_decide as Ht; simpl.
  - subst t. rewrite lookup_insert_eq. simpl.
    fold (count_of w ws).
    destruct (count_of w ws) as [|n]; simpl; [done|].
    f_equal. rewrite wrap_int_add. f_equal. lia.
  - rewrite lookup_insert_ne by done. done.
Qed.

Lemma count_of_normalize (w : list ascii) (text : list ascii) :
  count_of w (normalize <$> tokens text) = occurrences w text.
Proof.
  unfold count_of, occurrences.
  induction (tokens text) as [|t ts IH]; csimpl; [done|].
  destruct (bool_decide (normalize t = w)); csimpl; by rewrite IH.
Qed.

Lemma lookup_parse (text w : list ascii) :
  parse ∅ text !! w =
  if (occurrences w text =? 0)%nat then None
  else Some (wrap_int (Z.of_nat (occurrences w text))).
Proof.
  rewrite parse_tokens, lookup_foldl_increment, count_of_normalize.
  by rewrite lookup_empty.
Qed.

(** C1.  Starting from an empty map, [parse] maps every word to the
    number of whitespace-separated tokens of the text that normalize to
    it (punctuation removed, the rest in lower case), and holds no other
    key: a word no token normalizes to is absent.  The count is an [int];
    the statement is for counts an [int] can hold. *)
Theorem parse_counts_tokens (text w : list ascii) :
  Z.of_nat (occurrences w text) ≤ INT_MAX →
  parse ∅ text !! w =
  if (occurrences w text =? 0)%nat then None
  else Some (Z.of_nat (occurrences w text)).
Proof.
  intros Hfit. rewrite lookup_parse.
  destruct (occurrences w text =? 0)%nat; [done|].
  f_equal. apply wrap_int_small. unfold INT_MIN. lia.
Qed.

Lemma parse_counts_tokens_witness :
  parse ∅ (str "The cat, the DOG; the end.") !! (str "the") = Some 3
  ∧ parse ∅ (str "The cat, the DOG; the end.") !! (str "cat,") = None.
Proof.
  split.
  - apply (parse_counts_tokens (str "The cat, the DOG; the end.") (str "the")).
    vm_compute. discriminate.
  - apply (parse_counts_tokens (str "The cat, the DOG; the end.") (str "cat,")).
    vm_compute. discriminate.
Defined.

(** C4.  Each token that the loop of [parse] extracts is counted under
    the token with its punctuation removed and the remaining characters
    in lower case; removing comes first in the code, and lowering first
    gives the same key. *)
Theorem token_key_is_normalized :
  (∀ map ss word ss',
     extract ss = Some (word, ss') →
     parse map ss = parse (increment map (lower (strip word))) ss')
  ∧ (∀ word, clean word = lower (strip word))
  ∧ (∀ word, lower (strip word) = strip (lower word)).
Proof.
  split_and!.
  - intros map ss word ss' E. unfold parse.
    rewrite (parse_loop_step map ss), E. by rewrite clean_normalize.
  - apply clean_normalize.
  - apply lower_strip_comm.
Qed.

Lemma token_key_is_normalized_witness :
  parse ∅ (str "Don't stop") = parse (increment ∅ (str "dont")) (str " stop")
  ∧ clean (str "Don't") = str "dont".
Proof.
  destruct token_key_is_normalized as (Hstep & Hclean & _). split.
  - apply (Hstep ∅ (str "Don't stop") (str "Don't") (str " stop")). reflexivity.
  - rewrite Hclean. reflexivity.
Defined.

(** ** [read_file] *)

Lemma to_size_t_of_nat (n : nat) : Z.of_nat n < 2 ^ 64 → to_size_t (Z.of_nat n) = n.
Proof. intros H. unfold to_size_t. rewrite Z.mod_small by lia. apply Nat2Z.id. Qed.

Lemma read_file_opened (fs : filesystem) (path bytes : list ascii) :
  fs path = Some bytes →
  Z.of_nat (length bytes) < 2 ^ 64 →
  read_file fs path = Return bytes.
Proof.
  intros Hopen Hsize. unfold read_file, ifstream_open. rewrite Hopen. simpl.
  unfold tellg. simpl. rewrite to_size_t_of_nat by done.
  unfold resize, read. simpl.
  rewrite take_nil, Nat.sub_0_r. simpl.
  rewrite length_replicate, firstn_all, drop_0.
  by rewrite (drop_ge (replicate _ _)), app_nil_r by (by rewrite length_replicate).
Qed.

Lemma read_file_throws (fs : filesystem) (path : list ascii) (e : exception) :
  read_file fs path = Throw e ↔
  fs path = None ∧ e = runtime_error (str "cannot open file").
Proof.
  unfold read_file, ifstream_open.
  destruct (fs path) as [bytes|]; simpl.
  - split; [done|]. by intros [? _].
  - split; [by intros [= <-]|]. by intros [_ ->].
Qed.



(** ** Paths that open and cannot be seeked *)

Import WordsFrequencyFiles.

Lemma length_resize (data : list ascii) (n : nat) : length (resize data n) = n.
Proof.
  unfold resize. rewrite length_app, length_take, length_replicate. lia.
Qed.

Lemma read_exactly (bytes : list ascii) :
  take (length (resize [] (length bytes))) bytes
  ++ drop (length (take (length (resize [] (length bytes))) bytes))
          (resize [] (length bytes)) = bytes.
Proof.
  rewrite length_resize, firstn_all.
  by rewrite drop_ge, app_nil_r by (by rewrite length_resize).
Qed.

Lemma read_file_on_closed (max_size : Z) (m : machine) (path : list ascii) :
  m path = None →
  read_file_on max_size m path = Throws (std_runtime_error (str "cannot open file")).
Proof. intros Hno. unfold read_file_on, open_on. by rewrite Hno. Qed.

Lemma read_file_on_unseekable (max_size : Z) (m : machine) (path : list ascii) :
  max_size < 2 ^ 64 - 1 →
  m path = Some Unseekable →
  read_file_on max_size m path = Throws std_length_error.
Proof.
  intros Hmax Hdir. unfold read_file_on, open_on. rewrite Hdir. simpl.
  unfold resize_on, tellg_on, size_t_of. simpl.
  change (-1 mod 2 ^ 64) with (2 ^ 64 - 1).
  by destruct (Z.ltb_spec max_size (2 ^ 64 - 1)); [|lia].
Qed.

Lemma read_file_on_regular (max_size : Z) (m : machine) (path bytes : list ascii) :
  max_size < 2 ^ 64 - 1 →
  m path = Some (Regular bytes) →
  Z.of_nat (length bytes) ≤ max_size →
  read_file_on max_size m path = Returns bytes.
Proof.
  intros Hmax Hfile Hfits.
  unfold read_file_on, open_on. rewrite Hfile. simpl.
  unfold resize_on, tellg_on, size_t_of. simpl.
  rewrite Z.mod_small by lia.
  destruct (Z.ltb_spec max_size (Z.of_nat (length bytes))); [lia|].
  rewrite Nat2Z.id. unfold read_on. simpl.
  rewrite drop_0. f_equal. apply read_exactly.
Qed.

Lemma read_file_on_throws (max_size : Z) (m : machine) (path : list ascii) (e : thrown) :
  max_size < 2 ^ 64 - 1 →
  read_file_on max_size m path = Throws e →
  (m path = None ∧ e = std_runtime_error (str "cannot open file"))
  ∨ (e = std_length_error
     ∧ (m path = Some Unseekable
        ∨ ∃ bytes, m path = Some (Regular bytes)
                   ∧ max_size < Z.of_nat (length bytes))).
Proof.
  intros Hmax.
  destruct (m path) as [[bytes|]|] eqn:Hpath.
  - destruct (Z.le_gt_cases (Z.of_nat (length bytes)) max_size) as [Hfits|Hbig].
    + by rewrite (read_file_on_regular max_size m path bytes).
    + intros He. right. split; [|by eauto].
      revert He. unfold read_file_on, open_on. rewrite Hpath. simpl.
      unfold resize_on. destruct (_ <? _); [by intros [= <-]|].
      unfold read_on. simpl. discriminate.
  - rewrite read_file_on_unseekable by done. intros [= <-]. by eauto.
  - rewrite read_file_on_closed by done. intros [= <-]. by left.
Qed.

Lemma main_on_machine_throws
    (max_size : Z) (iterate : word_map → list entry) (m : machine) (e : thrown) :
  main_on_machine max_size iterate m = Throws e ↔
  read_file_on max_size m test_file = Throws e.
Proof. unfold main_on_machine. by destruct (read_file_on max_size m test_file). Qed.

Lemma main_on_machine_read
    (max_size : Z) (iterate : word_map → list entry) (m : machine)
    (text : list ascii) :
  read_file_on max_size m test_file = Returns text →
  main_on_machine max_size iterate m
  = Returns (concat (print_entry <$> std_sort by_frequency (iterate (parse ∅ text)))).
Proof. intros Hread. unfold main_on_machine. by rewrite Hread. Qed.

(** On regular files that fit a [std::string], the two models of
    [read_file] and of [main] agree. *)
Lemma read_file_on_regular_files
    (max_size : Z) (fs : filesystem) (path : list ascii) :
  max_size < 2 ^ 64 - 1 →
  (∀ bytes, fs path = Some bytes → Z.of_nat (length bytes) ≤ max_size) →
  read_file_on max_size (regular_files fs) path = of_outcome (read_file fs path).
Proof.
  intros Hmax Hfits. destruct (fs path) as [bytes|] eqn:Hpath.
  - rewrite (read_file_on_regular max_size _ path bytes);
      [|done|by unfold regular_files; rewrite Hpath|by apply Hfits].
    rewrite (read_file_opened fs path bytes); [done|done|].
    specialize (Hfits bytes eq_refl). lia.
  - rewrite read_file_on_closed by (by unfold regular_files; rewrite Hpath).
    assert (read_file fs path = Throw (runtime_error (str "cannot open file")))
      as -> by (by apply read_file_throws).
    done.
Qed.

Lemma main_on_machine_regular_files
    (max_size : Z) (iterate : word_map → list entry) (fs : filesystem) :
  max_size < 2 ^ 64 - 1 →
  (∀ bytes, fs test_file = Some bytes → Z.of_nat (length bytes) ≤ max_size) →
  main_on_machine max_size iterate (regular_files fs) = of_outcome (main iterate fs).
Proof.
  intros Hmax Hfits. unfold main_on_machine, main.
  rewrite read_file_on_regular_files by done.
  by destruct (read_file fs test_file) as [text|[what]].
Qed.

(** C3.  [read_file] throws [runtime_error("cannot open file")] exactly
    when the path cannot be opened, and that check is the only failure
    the counter handles.  It is not the only error: on a path that opens
    and cannot be seeked, [tellg] returns -1 and [resize] throws
    [std::length_error]; the same holds for a file longer than
    [max_size()], and these are all the errors.  On a regular file that
    fits a string [read_file] returns its bytes.  [main] ends with an
    exception exactly when [read_file] does, with that exception, and
    returns its output otherwise: parsing, sorting and printing signal
    no error. *)
Theorem open_check_and_length_error
    (max_size : Z) (iterate : word_map → list entry) (m : machine) :
  max_size < 2 ^ 64 - 1 →
  (∀ path, (∃ what, read_file_on max_size m path = Throws (std_runtime_error what))
           ↔ m path = None)
  ∧ (∀ path what, read_file_on max_size m path = Throws (std_runtime_error what) →
                  what = str "cannot open file")
  ∧ (∀ path, m path = Some Unseekable →
             read_file_on max_size m path = Throws std_length_error)
  ∧ (∀ path bytes, m path = Some (Regular bytes) →
                   Z.of_nat (length bytes) ≤ max_size →
                   read_file_on max_size m path = Returns bytes)
  ∧ (∀ path, read_file_on max_size m path = Throws std_length_error →
             m path = Some Unseekable
             ∨ ∃ bytes, m path = Some (Regular bytes)
                        ∧ max_size < Z.of_nat (length bytes))
  ∧ (∀ e, main_on_machine max_size iterate m = Throws e ↔
          read_file_on max_size m test_file = Throws e)
  ∧ (∀ text, read_file_on max_size m test_file = Returns text →
             main_on_machine max_size iterate m
             = Returns (concat (print_entry <$>
                                std_sort by_frequency (iterate (parse ∅ text))))).
Proof.
  intros Hmax. split_and!.
  - intros path. split.
    + intros [what He].
      by apply read_file_on_throws in He as [[? _]|[? _]].
    + intros Hno. eexists. by apply read_file_on_closed.
  - intros path what He.
    apply read_file_on_throws in He as [[_ He]|[? _]]; [|done..].
    by injection He.
  - intros path. by apply read_file_on_unseekable.
  - intros path bytes. by apply read_file_on_regular.
  - intros path He.
    by apply read_file_on_throws in He as [[_ ?]|[_ ?]].
  - intros e. apply main_on_machine_throws.
  - intros text. apply main_on_machine_read.
Qed.

Lemma open_check_and_length_error_witness :
  main_on_machine (2 ^ 62 - 1) map_to_list (one_node test_file Unseekable)
  = Throws std_length_error
  ∧ main_on_machine (2 ^ 62 - 1) map_to_list (λ _, None)
    = Throws (std_runtime_error (str "cannot open file"))
  ∧ read_file_on (2 ^ 62 - 1) (one_node test_file (Regular (str "a b a"))) test_file
    = Returns (str "a b a").
Proof.
  destruct (open_check_and_length_error (2 ^ 62 - 1) map_to_list
              (one_node test_file Unseekable) eq_refl)
    as (_ & _ & Hdir & _ & _ & Hmain & _).
  destruct (open_check_and_length_error (2 ^ 62 - 1) map_to_list
              (λ _, None) eq_refl)
    as (Hclosed & Hwhat & _ & _ & _ & Hmain' & _).
  destruct (open_check_and_length_error (2 ^ 62 - 1) map_to_list
              (one_node test_file (Regular (str "a b a"))) eq_refl)
    as (_ & _ & _ & Hfile & _).
  split_and!.
  - apply Hmain, Hdir. reflexivity.
  - apply Hmain'. destruct (proj2 (Hclosed test_file) eq_refl) as [what He].
    rewrite He. f_equal. f_equal. exact (Hwhat test_file what He).
  - apply Hfile; [reflexivity|]. vm_compute. discriminate.
Defined.

(** C3 as it is stated fails when the input file is a directory, with
    [max_size()] as in libstdc++: the path opens, [read_file] throws
    [std::length_error], which is not the exception of the open check. *)
Lemma only_failure_is_open_counterexample :
  ¬ ((read_file_on (2 ^ 62 - 1) (one_node test_file Unseekable) test_file
      = Throws (std_runtime_error (str "cannot open file"))
      ↔ one_node test_file Unseekable test_file = None)
     ∧ (∀ e, read_file_on (2 ^ 62 - 1) (one_node test_file Unseekable) test_file
             = Throws e →
             e = std_runtime_error (str "cannot open file"))
     ∧ (∀ e, main_on_machine (2 ^ 62 - 1) map_to_list
               (one_node test_file Unseekable) = Throws e →
             e = std_runtime_error (str "cannot open file"))).
Proof.
  intros (_ & Hread & _).
  specialize (Hread std_length_error eq_refl). discriminate.
Qed.

(** ** The comparator of [std::sort] *)

Lemma code_inj (c d : ascii) : code c = code d → c = d.
Proof.
  unfold code. intros H.
  by rewrite <-(ascii_N_embedding c), <-(ascii_N_embedding d), H.
Qed.

Lemma string_lt_irrefl (a : list ascii) : string_lt a a = false.
Proof. induction a as [|c a IH]; simpl; [done|]. by rewrite N.ltb_irrefl. Qed.

Lemma string_lt_trans (a b c : list ascii) :
  string_lt a b = true → string_lt b c = true → string_lt a c = true.
Proof.
  revert b c. induction a as [|x a IH]; intros [|y b] [|z c]; simpl; try done.
  destruct (N.ltb_spec (code x) (code y)), (N.ltb_spec (code y) (code x)),
    (N.ltb_spec (code y) (code z)), (N.ltb_spec (code z) (code y)),
    (N.ltb_spec (code x) (code z)), (N.ltb_spec (code z) (code x));
    try done; try lia.
  apply IH.
Qed.

Lemma string_lt_total (a b : list ascii) :
  a ≠ b → string_lt a b = true ∨ string_lt b a = true.
Proof.
  revert b. induction a as [|x a IH]; intros [|y b] Hne; simpl; try done; auto.
  destruct (N.ltb_spec (code x) (code y)), (N.ltb_spec (code y) (code x));
    auto; try lia.
  apply IH. intros ->. apply Hne. f_equal. apply code_inj. lia.
Qed.

Lemma by_frequency_irrefl (a : entry) : by_frequency a a = false.
Proof. unfold by_frequency. rewrite Z.eqb_refl. apply string_lt_irrefl. Qed.

Lemma by_frequency_trans (a b c : entry) :
  by_frequency a b = true → by_frequency b c = true → by_frequency a c = true.
Proof.
  unfold by_frequency.
  destruct (Z.eqb_spec a.2 b.2), (Z.eqb_spec b.2 c.2), (Z.eqb_spec a.2 c.2);
    simpl; rewrite ?Z.ltb_lt; try lia.
  apply string_lt_trans.
Qed.

Lemma by_frequency_total (a b : entry) :
  a ≠ b → by_frequency a b = true ∨ by_frequency b a = true.
Proof.
  unfold by_frequency. destruct a as [wa na], b as [wb nb]. simpl. intros Hne.
  destruct (Z.eqb_spec na nb), (Z.eqb_spec nb na); simpl;
    rewrite ?Z.ltb_lt; try lia.
  apply string_lt_total. congruence.
Qed.

Lemma by_frequency_asym (a b : entry) :
  by_frequency a b = true → by_frequency b a = false.
Proof.
  intros Hab. destruct (by_frequency b a) eqn:Hba; [|done].
  by rewrite <-(by_frequency_irrefl a), (by_frequency_trans a b a).
Qed.

(** ** [std::sort] *)

Section Sort.

Context {A : Type} (comp : A → A → bool).

Lemma insert_sorted_perm (x : A) (l : list A) : insert_sorted comp x l ≡ₚ x :: l.
Proof.
  induction l as [|y l IH]; simpl; [done|].
  destruct (comp x y); [done|]. by rewrite IH, Permutation_swap.
Qed.

Lemma std_sort_perm (vec : list A) : std_sort comp vec ≡ₚ vec.
Proof.
  unfold std_sort.
  cut (∀ acc, foldl (λ sorted x, insert_sorted comp x sorted) acc vec ≡ₚ acc ++ vec).
  { intros H. apply H. }
  induction vec as [|x vec IH]; intros acc; simpl.
  - by rewrite app_nil_r.
  - rewrite IH, insert_sorted_perm. simpl. apply Permutation_middle.
Qed.

Hypothesis comp_asym : ∀ x y, comp x y = true → comp y x = false.

Lemma insert_sorted_Sorted (x : A) (l : list A) :
  Sorted (ordered comp) l → Sorted (ordered comp) (insert_sorted comp x l).
Proof.
  induction 1 as [|y l Hl IH Hhd]; simpl.
  { repeat constructor. }
  destruct (comp x y) eqn:Hxy.
  - constructor; [by constructor|]. constructor. by apply comp_asym.
  - constructor; [done|].
    destruct Hhd as [|z l' Hyz]; simpl; [by repeat constructor|].
    destruct (comp x z); by constructor.
Qed.

Lemma std_sort_Sorted (vec : list A) : Sorted (ordered comp) (std_sort comp vec).
Proof.
  unfold std_sort.
  cut (∀ acc, Sorted (ordered comp) acc →
              Sorted (ordered comp) (foldl (λ sorted x, insert_sorted comp x sorted) acc vec)).
  { intros H. apply H. constructor. }
  induction vec as [|x vec IH]; intros acc Hacc; simpl; [done|].
  by apply IH, insert_sorted_Sorted.
Qed.

End Sort.

Lemma ordered_by_frequency_trans : Transitive (ordered by_frequency).
Proof.
  intros a b c Hab Hbc. unfold ordered in *.
  destruct (by_frequency c a) eqn:Hca; [|done].
  destruct (decide (b = c)) as [->|Hne]; [congruence|].
  destruct (by_frequency_total b c Hne) as [H|H]; [|congruence].
  by rewrite (by_frequency_trans b c a) in Hab.
Qed.

Lemma ordered_by_frequency_antisym (a b : entry) :
  ordered by_frequency a b → ordered by_frequency b a → a = b.
Proof.
  unfold ordered. intros Hab Hba.
  destruct (decide (a = b)) as [|Hne]; [done|].
  destruct (by_frequency_total a b Hne); congruence.
Qed.

(** Whatever algorithm sorts, there is one sorted arrangement. *)
Lemma std_sort_unique (vec sorted : list entry) :
  sorted ≡ₚ vec → Sorted (ordered by_frequency) sorted →
  sorted = std_sort by_frequency vec.
Proof.
  intros Hperm Hsorted.
  pose proof ordered_by_frequency_trans.
  apply (Sorted_unique_strong (ordered by_frequency)); [|done| |].
  - intros ???? ??. by apply ordered_by_frequency_antisym.
  - apply std_sort_Sorted, by_frequency_asym.
  - by rewrite std_sort_perm.
Qed.

Lemma std_sort_permuted (vec1 vec2 : list entry) :
  vec1 ≡ₚ vec2 → std_sort by_frequency vec1 = std_sort by_frequency vec2.
Proof.
  intros Hperm. apply std_sort_unique.
  - by rewrite std_sort_perm.
  - apply std_sort_Sorted, by_frequency_asym.
Qed.

Lemma ordered_by_frequency_count (a b : entry) :
  ordered by_frequency a b → b.2 ≤ a.2.
Proof.
  unfold ordered, by_frequency.
  destruct (Z.eqb_spec b.2 a.2); simpl; [lia|]. rewrite Z.ltb_ge. lia.
Qed.

(** ** [main] *)

Lemma main_read (iterate : word_map → list entry) (fs : filesystem) (text : list ascii) :
  read_file fs test_file = Return text →
  main iterate fs =
  Return (concat (print_entry <$> std_sort by_frequency (iterate (parse ∅ text)))).
Proof. intros Hread. unfold main. by rewrite Hread. Qed.

Lemma Sorted_adjacent {A} (R : A → A → Prop) (l : list A) (i : nat) (a b : A) :
  Sorted R l → l !! i = Some a → l !! S i = Some b → R a b.
Proof.
  intros Hsorted. revert i. induction Hsorted as [|x l Hl IH Hhd]; intros i; [done|].
  destruct i as [|i]; simpl.
  - intros [= ->] Hb. destruct Hhd as [|y l' Hxy]; [done|]. by simplify_eq/=.
  - apply IH.
Qed.

(** C2.  The output of the counter is sorted by frequency: on the text
    it has read, [main] prints the entries of the sorted vector, one per
    line and in order, and in that vector the count of an entry is at
    least the count of the entry after it. *)
Theorem output_sorted_by_frequency
    (iterate : word_map → list entry) (fs : filesystem) (text : list ascii) :
  read_file fs test_file = Return text →
  ∃ vec,
    vec = std_sort by_frequency (iterate (parse ∅ text))
    ∧ main iterate fs = Return (concat (print_entry <$> vec))
    ∧ ∀ i a b, vec !! i = Some a → vec !! S i = Some b → b.2 ≤ a.2.
Proof.
  intros Hread. eexists. split; [done|]. split.
  - by apply main_read.
  - intros i a b Ha Hb. apply ordered_by_frequency_count.
    eapply Sorted_adjacent; [|done..].
    apply std_sort_Sorted, by_frequency_asym.
Qed.

Lemma output_sorted_by_frequency_witness :
  ∃ vec,
    vec = [(str "b", 3); (str "a", 2); (str "c", 2); (str "", 1)]
    ∧ main map_to_list (one_file test_file (str "b a, B! -- c a. b? C"))
      = Return (concat (print_entry <$> vec))
    ∧ ∀ i a b, vec !! i = Some a → vec !! S i = Some b → b.2 ≤ a.2.
Proof.
  destruct (output_sorted_by_frequency map_to_list
              (one_file test_file (str "b a, B! -- c a. b? C"))
              (str "b a, B! -- c a. b? C"))
    as (vec & Hvec & Hmain & Hsorted).
  - vm_compute. reflexivity.
  - exists vec. split; [|exact (conj Hmain Hsorted)].
    rewrite Hvec. vm_compute. reflexivity.
Defined.

(** C7.  The comparator (count descending, then word ascending) is a
    strict total order on (word, count) pairs: irreflexive, transitive,
    and any two different pairs are ordered one way.  So the order in
    which the hash map hands out its entries does not show: two runs on
    the same files have the same outcome. *)
Theorem output_deterministic
    (iterate1 iterate2 : word_map → list entry) (fs : filesystem) :
  admissible iterate1 →
  admissible iterate2 →
  (∀ a, by_frequency a a = false)
  ∧ (∀ a b c, by_frequency a b = true → by_frequency b c = true →
              by_frequency a c = true)
  ∧ (∀ a b, a ≠ b → by_frequency a b = true ∨ by_frequency b a = true)
  ∧ main iterate1 fs = main iterate2 fs.
Proof.
  intros H1 H2. split_and!.
  - apply by_frequency_irrefl.
  - apply by_frequency_trans.
  - apply by_frequency_total.
  - unfold main. destruct (read_file fs test_file) as [text|e]; [|done].
    do 3 f_equal. apply std_sort_permuted. by rewrite (H1 _), (H2 _).
Qed.

Lemma reverse_admissible : admissible (λ map, reverse (map_to_list map)).
Proof. intros map. apply reverse_Permutation. Qed.

Lemma output_deterministic_witness :
  main map_to_list (one_file test_file (str "b a, B! -- c a. b? C"))
  = main (λ map, reverse (map_to_list map))
         (one_file test_file (str "b a, B! -- c a. b? C")).
Proof.
  apply (output_deterministic map_to_list (λ map, reverse (map_to_list map))
           (one_file test_file (str "b a, B! -- c a. b? C"))).
  - intros map. reflexivity.
  - apply reverse_admissible.
Defined.

Lemma strip_punctuation (tok : list ascii) :
  forallb ispunct tok = true → strip tok = [].
Proof.
  unfold strip. induction tok as [|c tok IH]; simpl; [done|].
  intros [Hc Htok]%andb_true_iff. rewrite Hc. simpl. by apply IH.
Qed.

Lemma occurrences_pos (w tok text : list ascii) :
  tok ∈ tokens text → normalize tok = w → occurrences w text ≠ 0%nat.
Proof.
  unfold occurrences. intros Hin Hw.
  assert (tok ∈ List.filter (λ t, bool_decide (normalize t = w)) (tokens text)) as H.
  { apply list_elem_of_In, List.filter_In. split.
    - by apply list_elem_of_In.
    - by apply bool_decide_eq_true. }
  destruct (List.filter _ _); [|done]. by apply not_elem_of_nil in H.
Qed.

Lemma printed_entry (l1 l2 : list entry) (e : entry) :
  concat (print_entry <$> (l1 ++ e :: l2))
  = concat (print_entry <$> l1) ++ print_entry e ++ concat (print_entry <$> l2).
Proof. by rewrite fmap_app, concat_app. Qed.

(** C8.  A token made of punctuation only is cleaned to the empty
    string and counted under it: when the text that [main] has read has
    such a token, the map has the key [""] with some count [n], the
    entry [("", n)] is in the vector that [main] prints, and the output
    of [main] is the lines of the entries before it, the line of that
    entry, whose word is empty, and the lines of the entries after it. *)
Theorem punctuation_token_counts_as_empty
    (iterate : word_map → list entry) (fs : filesystem) (text tok : list ascii) :
  admissible iterate →
  read_file fs test_file = Return text →
  tok ∈ tokens text →
  forallb ispunct tok = true →
  clean tok = []
  ∧ ∃ n, parse ∅ text !! [] = Some n
         ∧ print_entry ([], n) = str ": " ++ show_int n ++ endl
         ∧ ∃ l1 l2,
             std_sort by_frequency (iterate (parse ∅ text)) = l1 ++ ([], n) :: l2
             ∧ main iterate fs
               = Return (concat (print_entry <$> l1)
                         ++ print_entry ([], n)
                         ++ concat (print_entry <$> l2)).
Proof.
  intros Hiter Hread Htok Hpunct.
  assert (normalize tok = []) as Hnorm.
  { unfold normalize. by rewrite strip_punctuation. }
  split; [by rewrite clean_normalize|].
  pose proof (occurrences_pos [] tok text Htok Hnorm) as Hocc.
  pose proof (lookup_parse text []) as Hlook.
  destruct (Nat.eqb_spec (occurrences [] text) 0) as [|_]; [done|].
  exists (wrap_int (Z.of_nat (occurrences [] text))).
  split; [done|]. split; [done|].
  assert (([], wrap_int (Z.of_nat (occurrences [] text)))
          ∈ std_sort by_frequency (iterate (parse ∅ text))) as Hin.
  { rewrite std_sort_perm, (Hiter _). by apply elem_of_map_to_list. }
  apply list_elem_of_split in Hin as (l1 & l2 & Hvec).
  exists l1, l2. split; [done|].
  by rewrite (main_read iterate fs text), Hvec, printed_entry.
Qed.

Lemma punctuation_token_counts_as_empty_witness :
  clean (str "--") = []
  ∧ ∃ n, parse ∅ (str "hello -- world") !! [] = Some n
         ∧ print_entry ([], n) = str ": " ++ show_int n ++ endl
         ∧ ∃ l1 l2,
             std_sort by_frequency (map_to_list (parse ∅ (str "hello -- world")))
             = l1 ++ ([], n) :: l2
             ∧ main map_to_list (one_file test_file (str "hello -- world"))
               = Return (concat (print_entry <$> l1)
                         ++ print_entry ([], n)
                         ++ concat (print_entry <$> l2)).
Proof.
  apply (punctuation_token_counts_as_empty map_to_list
           (one_file test_file (str "hello -- world"))
           (str "hello -- world") (str "--")).
  - intros map. reflexivity.
  - vm_compute. reflexivity.
  - vm_compute. apply list_elem_of_In. simpl. auto.
  - reflexivity.
Defined.

(** * Properties of the two threads and the mutex *)

Import Multithreading.

Lemma invariant_init : invariant init.
Proof. by repeat split. Qed.

Ltac destruct_thread t :=
  destruct t as [[[] ?]|].

Ltac simplify_state :=
  simpl in *; rewrite ?is_Some_alt in *; simpl in *;
  destruct_and?; simplify_eq/=.

Lemma invariant_step (a : actor) (s s' : state) :
  invariant s → step a s = Some s' → invariant s'.
Proof.
  destruct s as [amount mutex mpc th1 th2 output].
  unfold invariant, holder, threads_at.
  intros (Hamount & Hmutex & Hexcl & Hr1 & Hr2 & Hthreads & Hout) Hstep.
  destruct a, mpc; destruct_thread th1; destruct_thread th2;
    simpl in Hmutex, Hexcl, Hthreads; try discriminate Hexcl;
    rewrite ?is_Some_alt in Hthreads; destruct Hthreads as [??];
    try discriminate; try contradiction;
    subst mutex; simpl in Hstep; try discriminate Hstep;
    injection Hstep as <-; simpl in *; subst;
    repeat split; simpl; rewrite ?is_Some_alt;
    try reflexivity; try assumption; try exact I.
Qed.

Lemma invariant_run (schedule : list actor) (s s' : state) :
  invariant s → run schedule s = Some s' → invariant s'.
Proof.
  revert s. induction schedule as [|a rest IH]; intros s Hs; simpl.
  - by intros [= <-].
  - destruct (step a s) as [s1|] eqn:E; [|done]. simpl.
    apply IH. by eapply invariant_step.
Qed.

Lemma invariant_reachable (s : state) : reachable s → invariant s.
Proof. intros [schedule Hrun]. eapply invariant_run, Hrun. apply invariant_init. Qed.

Lemma step_progress (s : state) :
  invariant s → main_at s ≠ Exit → ∃ a s', step a s = Some s'.
Proof.
  destruct s as [amount mutex mpc th1 th2 output].
  unfold invariant, holder, threads_at.
  intros (_ & Hmutex & Hexcl & _ & _ & Hthreads & _) Hmain.
  destruct mpc; destruct_thread th1; destruct_thread th2;
    simplify_state; try done;
    first [by exists Main; eexists | by exists T1; eexists | by exists T2; eexists].
Qed.

Lemma step_steps_left (a : actor) (s s' : state) :
  invariant s → step a s = Some s' → S (steps_left s') = steps_left s.
Proof.
  destruct s as [amount mutex mpc th1 th2 output].
  unfold invariant, holder, threads_at, steps_left.
  intros (_ & Hmutex & _ & _ & _ & Hthreads & _) Hstep.
  destruct a, mpc; destruct_thread th1; destruct_thread th2;
    simplify_state; done.
Qed.

(** No run is longer than thirteen steps. *)
Lemma run_length (schedule : list actor) (s s' : state) :
  invariant s → run schedule s = Some s' →
  (length schedule + steps_left s' = steps_left s)%nat.
Proof.
  revert s. induction schedule as [|a rest IH]; intros s Hs; simpl.
  - by intros [= <-].
  - destruct (step a s) as [s1|] eqn:E; [|done]. simpl. intros Hrun.
    pose proof (step_steps_left a s s1 Hs E).
    pose proof (IH s1 (invariant_step a s s1 Hs E) Hrun). lia.
Qed.

(** C6.  In every state the program can reach, under every
    interleaving: a thread between [m.lock()] and [m.unlock()] holds the
    mutex (so the two are never there together), [myAmount] is the number
    of threads that have written their increment, each thread writes
    once, and once [main] has joined both threads [myAmount] is 2 and
    that is what it prints.  The program cannot get stuck before the end
    of [main], and every step brings it one step closer to it. *)
Theorem counter_is_two_after_joins (s : state) :
  reachable s →
  (in_critical_section (t1 s) = true → m s = Some T1)
  ∧ (in_critical_section (t2 s) = true → m s = Some T2)
  ∧ myAmount s = increments (t1 s) + increments (t2 s)
  ∧ (main_at s = Check ∨ main_at s = Exit → myAmount s = 2)
  ∧ (main_at s = Exit → out s = message 2)
  ∧ (main_at s ≠ Exit → ∃ a s', step a s = Some s')
  ∧ (∀ a s', step a s = Some s' → S (steps_left s') = steps_left s).
Proof.
  intros Hreach. pose proof (invariant_reachable s Hreach) as Hinv.
  split_and!.
  - destruct Hinv as (_ & -> & _). unfold holder. by intros ->.
  - destruct Hinv as (_ & -> & Hexcl & _). unfold holder. intros H2.
    rewrite H2, andb_true_r in Hexcl. by rewrite Hexcl, H2.
  - apply Hinv.
  - destruct Hinv as (-> & _ & _ & _ & _ & Hthreads & _).
    unfold threads_at in Hthreads.
    intros [Hm|Hm]; rewrite Hm in Hthreads; destruct Hthreads as [H1 H2];
      destruct (t1 s) as [[[] ?]|]; try done;
      destruct (t2 s) as [[[] ?]|]; done.
  - destruct Hinv as (_ & _ & _ & _ & _ & _ & ->). by intros ->.
  - by apply step_progress.
  - intros a s'. by apply step_steps_left.
Qed.

Lemma counter_is_two_after_joins_witness :
  ∃ s, run [Main; T1; Main; T1; T1; T1; T2; T2; Main; T2; T2; Main; Main] init = Some s
       ∧ myAmount s = 2 ∧ out s = message 2.
Proof.
  exists (State 2 None Exit (Some (Thread Returned 0)) (Some (Thread Returned 1))
                (message 2)).
  split; [vm_compute; reflexivity|].
  destruct (counter_is_two_after_joins
              (State 2 None Exit (Some (Thread Returned 0)) (Some (Thread Returned 1))
                     (message 2)))
    as (_ & _ & _ & Htwo & Hout & _).
  - exists [Main; T1; Main; T1; T1; T1; T2; T2; Main; T2; T2; Main; Main].
    vm_compute. reflexivity.
  - split; [apply Htwo; right; reflexivity|apply Hout; reflexivity].
Defined.

(** * Properties of [CsvClass::FilterData] *)

Import CsvInOut.

(** ** Loops *)

Section Loops.

Context {S : Type} (body : nat → S → option S).

(** What a loop that ends has established, from an invariant that may
    depend on the loop counter. *)
Lemma for_range_inv (P : nat → S → Prop) (first count : nat) (s s' : S) :
  P first s →
  (∀ i s s', (first ≤ i < first + count)%nat → P i s → body i s = Some s' →
             P (Datatypes.S i) s') →
  for_range first count body s = Some s' →
  P (first + count)%nat s'.
Proof.
  revert first s. induction count as [|k IH]; intros first s Hs Hbody; simpl.
  - intros [= <-]. by rewrite Nat.add_0_r.
  - destruct (body first s) as [s1|] eqn:E; [|done]. simpl. intros Hrest.
    replace (first + Datatypes.S k)%nat with (Datatypes.S first + k)%nat by lia.
    apply (IH (Datatypes.S first) s1); [|intros; apply (Hbody i s0); [lia|done..]|done].
    apply (Hbody first s); [lia|done..].
Qed.

(** A loop whose body is defined under the invariant ends. *)
Lemma for_range_total (P : nat → S → Prop) (first count : nat) (s : S) :
  P first s →
  (∀ i s, (first ≤ i < first + count)%nat → P i s →
          ∃ s', body i s = Some s' ∧ P (Datatypes.S i) s') →
  ∃ s', for_range first count body s = Some s' ∧ P (first + count)%nat s'.
Proof.
  revert first s. induction count as [|k IH]; intros first s Hs Hbody; simpl.
  - exists s. by rewrite Nat.add_0_r.
  - destruct (Hbody first s) as (s1 & -> & Hs1); [lia|done|]. simpl.
    replace (first + Datatypes.S k)%nat with (Datatypes.S first + k)%nat by lia.
    apply IH; [done|]. intros i s0 Hi. apply Hbody. lia.
Qed.

End Loops.

Section FilterProofs.

Context {double : Type}.
Variables (feq flt : double → double → bool).
Variables (fadd fdiv : double → double → double).
Variable of_int : Z → double.

Local Abbreviation collect := (collect feq of_int).
Local Abbreviation median := (median flt fadd fdiv of_int).
Local Abbreviation filter_cell := (filter_cell feq flt fadd fdiv of_int).
Local Abbreviation FilterData := (FilterData feq flt fadd fdiv of_int).
Local Abbreviation preserves := (preserves feq of_int).
Local Abbreviation Array := (list (list double)).

(** ** Shapes *)

Lemma same_shape_refl (a : Array) : same_shape a a.
Proof. done. Qed.

Lemma same_shape_trans (a b c : Array) :
  same_shape a b → same_shape b c → same_shape a c.
Proof. unfold same_shape. congruence. Qed.

Lemma same_shape_length (a b : Array) : same_shape a b → length a = length b.
Proof.
  unfold same_shape. intros H.
  by rewrite <-(length_fmap length a), H, length_fmap.
Qed.

Lemma same_shape_row (a b : Array) (m : nat) (row : list double) :
  same_shape a b → a !! m = Some row →
  ∃ row', b !! m = Some row' ∧ length row' = length row.
Proof.
  unfold same_shape. intros H Hrow.
  assert ((length <$> b) !! m = Some (length row)) as Hb.
  { by rewrite <-H, list_lookup_fmap, Hrow. }
  rewrite list_lookup_fmap in Hb.
  destruct (b !! m) as [row'|]; simplify_eq/=. eauto.
Qed.

Lemma same_shape_in_bounds (a b : Array) (m n : nat) :
  same_shape a b → is_Some (at2 a m n) → is_Some (at2 b m n).
Proof.
  unfold at2. intros H [v Hv].
  destruct (a !! m) as [row|] eqn:Hrow; simplify_eq/=.
  destruct (same_shape_row a b m row H Hrow) as (row' & -> & Hlen). simpl.
  apply lookup_lt_is_Some. rewrite Hlen. by eapply lookup_lt_Some.
Qed.

Lemma same_shape_rectangular (a b : Array) (cols : nat) :
  same_shape a b → rectangular cols a → rectangular cols b.
Proof.
  unfold rectangular. rewrite !Forall_lookup. intros H Ha m row' Hrow'.
  destruct (same_shape_row b a m row') as (row & Hrow & Hlen); [done..|].
  rewrite <-Hlen. by eapply Ha.
Qed.

Lemma preserves_refl (a : Array) : preserves a a.
Proof. by split. Qed.

Lemma preserves_trans (a b c : Array) :
  preserves a b → preserves b c → preserves a c.
Proof.
  intros [Hab Hvab] [Hbc Hvbc]. split; [by eapply same_shape_trans|].
  intros m n v Hv Hnz. apply Hvbc; [|done]. by apply Hvab.
Qed.

(** ** Assignments *)

Lemma assign2_spec (a a' : Array) (m n : nat) (v : double) :
  assign2 a m n v = Some a' →
  same_shape a a'
  ∧ ∀ m' n', (m', n') ≠ (m, n) → at2 a' m' n' = at2 a m' n'.
Proof.
  unfold assign2, at2. intros H.
  destruct (a !! m) as [row|] eqn:Hrow; simplify_eq/=.
  destruct (row !! n) as [old|] eqn:Hold; simplify_eq/=.
  split.
  - unfold same_shape. rewrite list_fmap_insert, length_insert.
    symmetry. apply list_insert_id. by rewrite list_lookup_fmap, Hrow.
  - intros m' n' Hne. destruct (decide (m' = m)) as [->|Hm].
    + rewrite list_lookup_insert_eq by (by eapply lookup_lt_Some).
      rewrite Hrow. simpl. apply list_lookup_insert_ne. congruence.
    + by rewrite list_lookup_insert_ne.
Qed.

Lemma assign2_total (a : Array) (m n : nat) (v : double) :
  is_Some (at2 a m n) → is_Some (assign2 a m n v).
Proof.
  unfold assign2, at2. intros [old H].
  destruct (a !! m) as [row|]; simplify_eq/=. by rewrite H.
Qed.

Lemma replace_spec (ZStack : list (nat * nat)) (v : double) (a a' : Array) :
  replace ZStack v a = Some a' →
  same_shape a a'
  ∧ ∀ m n, (m, n) ∉ ZStack → at2 a' m n = at2 a m n.
Proof.
  revert a. induction ZStack as [|[zm zn] rest IH]; intros a; simpl.
  { by intros [= <-]. }
  destruct (assign2 a zm zn v) as [a1|] eqn:E; [|done]. simpl. intros Hrest.
  destruct (assign2_spec _ _ _ _ _ E) as [Hs1 Hv1].
  destruct (IH _ Hrest) as [Hs2 Hv2].
  split; [by eapply same_shape_trans|].
  intros m n Hnot. apply not_elem_of_cons in Hnot as [Hne Hnot].
  by rewrite Hv2, Hv1.
Qed.

Lemma replace_total (ZStack : list (nat * nat)) (v : double) (a : Array) :
  Forall (λ ZS, is_Some (at2 a ZS.1 ZS.2)) ZStack →
  is_Some (replace ZStack v a).
Proof.
  revert a. induction ZStack as [|[zm zn] rest IH]; intros a; simpl; [done|].
  intros [Hhd Htl]%Forall_cons. simpl in Hhd.
  destruct (assign2_total a zm zn v Hhd) as [a1 E]. rewrite E. simpl.
  apply IH. eapply Forall_impl; [done|]. intros [m n]. simpl.
  apply same_shape_in_bounds. by eapply assign2_spec.
Qed.

(** ** The sliding window *)

(** The loop in the goal ends, with invariant [P]. *)
Ltac loop_total P H :=
  match goal with
  | |- context [for_range ?first ?count ?body ?s] =>
      pose proof (for_range_total body P first count s) as H
  end.

Lemma collect_spec (FData : Array) (MinM MaxM MinN MaxN : nat)
    (ZStack : list (nat * nat)) (Window : list double) :
  collect FData MinM MaxM MinN MaxN = Some (ZStack, Window) →
  Forall (is_zero_at feq of_int FData) ZStack
  ∧ length Window = ((MaxM - MinM) * (MaxN - MinN))%nat.
Proof.
  unfold CsvInOut.collect, for_loop. intros H.
  apply (for_range_inv _
           (λ m st, Forall (is_zero_at feq of_int FData) st.1
                    ∧ length st.2 = ((m - MinM) * (MaxN - MinN))%nat)) in H.
  - simpl in H. destruct H as [? ->]. split; [done|]. f_equal. lia.
  - simpl. split; [done|]. by rewrite Nat.sub_diag.
  - clear H. intros m st st' Hm [Hz Hlen] H.
    apply (for_range_inv _
             (λ n st, Forall (is_zero_at feq of_int FData) st.1
                      ∧ length st.2
                        = ((m - MinM) * (MaxN - MinN) + (n - MinN))%nat)) in H.
    + destruct H as [? ->]. split; [done|]. nia.
    + split; [done|]. rewrite Hlen. lia.
    + clear. intros n [ZS W] [ZS' W'] Hn [Hz Hlen]. simpl in *.
      destruct (at2 FData m n) as [v|] eqn:Hv; [|done]. simpl. intros [= <- <-].
      split.
      * destruct (feq v (of_int 0)) eqn:Hfeq; [|done].
        apply Forall_app. split; [done|]. apply Forall_singleton.
        by exists v.
      * rewrite length_app, Hlen. simpl. lia.
Qed.

Lemma collect_total (FData : Array) (MinM MaxM MinN MaxN : nat) :
  (∀ m n, (MinM ≤ m < MaxM)%nat → (MinN ≤ n < MaxN)%nat →
          is_Some (at2 FData m n)) →
  is_Some (collect FData MinM MaxM MinN MaxN).
Proof.
  intros Hin. unfold CsvInOut.collect, for_loop.
  loop_total (λ (_ : nat) (_ : list (nat * nat) * list double), True) Hrows.
  destruct Hrows as (st & -> & _); [done| |done].
  intros m st Hm _. unfold for_loop.
  apply (for_range_total _ (λ _ _, True)); [done|].
  intros n [ZS W] Hn _.
  destruct (Hin m n) as [v ->]; [lia..|]. simpl. eauto.
Qed.

(** ** The median *)

Lemma min_from_total (Window : list double) (e : nat) :
  (e < length Window)%nat →
  ∃ min, min_from flt Window e = Some min ∧ (min < length Window)%nat.
Proof.
  intros He. unfold min_from, for_loop.
  apply (for_range_total _ (λ _ min, (min < length Window)%nat)); [done|].
  intros k min Hk Hmin.
  destruct (lookup_lt_is_Some_2 Window k) as [wk ->]; [lia|].
  destruct (lookup_lt_is_Some_2 Window min) as [wmin ->]; [lia|]. simpl.
  eexists. split; [done|]. destruct (flt wk wmin); lia.
Qed.

Lemma select_total (e : nat) (Window : list double) :
  (e < length Window)%nat →
  ∃ Window', select flt e Window = Some Window'
             ∧ length Window' = length Window.
Proof.
  intros He. unfold select.
  destruct (min_from_total Window e He) as (min & -> & Hmin). simpl.
  destruct (lookup_lt_is_Some_2 Window e) as [temp ->]; [lia|].
  destruct (lookup_lt_is_Some_2 Window min) as [wmin ->]; [lia|]. simpl.
  eexists. split; [done|]. by rewrite !length_insert.
Qed.

Lemma mid_in_range (n : nat) : (2 ≤ n)%nat → ((n + 1) / 2 < n)%nat.
Proof. intros Hn. apply Nat.Div0.div_lt_upper_bound. lia. Qed.

Lemma median_total (Window : list double) :
  (2 ≤ length Window)%nat → is_Some (median Window).
Proof.
  intros Hlen. unfold CsvInOut.median, for_loop.
  pose proof (mid_in_range _ Hlen) as Hmid.
  set (mid := ((length Window + 1) / 2)%nat) in *.
  loop_total (λ (_ : nat) (W : list double), length W = length Window) Hpasses.
  destruct Hpasses as (W & -> & HW); [done| |].
  { intros e W He HW.
    destruct (select_total e W) as (W' & -> & HW'); [lia|].
    exists W'. split; [done|congruence]. }
  simpl.
  destruct (lookup_lt_is_Some_2 W mid) as [b Hb]; [lia|].
  destruct (lookup_lt_is_Some_2 W (mid - 1)) as [a Ha]; [lia|].
  destruct (negb _); [by rewrite Hb|]. rewrite Ha, Hb. simpl. eauto.
Qed.

(** ** One cell *)

Lemma filter_cell_preserves (i j : nat) (FData FData' : Array) :
  filter_cell i j FData = Some FData' → preserves FData FData'.
Proof.
  unfold CsvInOut.filter_cell. intros H.
  destruct (FData !! i) as [row|]; simplify_eq/=.
  destruct (collect _ _ _ _ _) as [[ZStack Window]|] eqn:Hcollect; simplify_eq/=.
  destruct (median Window) as [MedValue|]; simplify_eq/=.
  apply collect_spec in Hcollect as [Hzero _].
  apply replace_spec in H as [Hshape Hsame].
  split; [done|]. intros m n v Hv Hnz. rewrite Hsame; [done|].
  intros Hin. rewrite Forall_forall in Hzero.
  destruct (Hzero _ Hin) as (v' & Hv' & Hz). simpl in Hv'. congruence.
Qed.

Lemma window_size (i rows j cols : nat) :
  (i < rows)%nat → (j < cols)%nat → (2 ≤ rows ∨ 2 ≤ cols)%nat →
  let MaxM := if (i + 2 <? rows)%nat then (i + 2)%nat else rows in
  let MinM := if (1 <=? i)%nat then (i - 1)%nat else 0%nat in
  let MaxN := if (j + 2 <? cols)%nat then (j + 2)%nat else cols in
  let MinN := if (1 <=? j)%nat then (j - 1)%nat else 0%nat in
  (MaxM ≤ rows ∧ MaxN ≤ cols ∧ 2 ≤ (MaxM - MinM) * (MaxN - MinN))%nat.
Proof.
  intros Hi Hj Hsize. cbv zeta.
  destruct (Nat.ltb_spec (i + 2) rows), (Nat.leb_spec 1 i),
    (Nat.ltb_spec (j + 2) cols), (Nat.leb_spec 1 j);
    (split_and!; [lia|lia|]);
    match goal with
    | |- (2 ≤ ?a * ?b)%nat =>
        assert (1 ≤ a)%nat by lia; assert (1 ≤ b)%nat by lia;
        assert (2 ≤ a ∨ 2 ≤ b)%nat by lia;
        generalize dependent a; generalize dependent b; intros; nia
    end.
Qed.

Lemma rectangular_in_bounds (cols : nat) (a : Array) (m n : nat) :
  rectangular cols a → (m < length a)%nat → (n < cols)%nat →
  is_Some (at2 a m n).
Proof.
  unfold rectangular, at2. rewrite Forall_lookup. intros Hrect Hm Hn.
  destruct (lookup_lt_is_Some_2 a m Hm) as [row Hrow]. rewrite Hrow. simpl.
  apply lookup_lt_is_Some. by rewrite (Hrect m row Hrow).
Qed.

Lemma filter_cell_total (cols i j : nat) (FData : Array) :
  rectangular cols FData →
  (i < length FData)%nat → (j < cols)%nat →
  (2 ≤ length FData ∨ 2 ≤ cols)%nat →
  is_Some (filter_cell i j FData).
Proof.
  intros Hrect Hi Hj Hsize. unfold CsvInOut.filter_cell.
  destruct (lookup_lt_is_Some_2 FData i Hi) as [row Hrow]. rewrite Hrow.
  cbn [mbind option_bind]. cbv zeta.
  assert (length row = cols) as ->.
  { unfold rectangular in Hrect. rewrite Forall_lookup in Hrect. by eapply Hrect. }
  destruct (window_size i (length FData) j cols Hi Hj Hsize) as (HM & HN & Hwin).
  destruct (collect_total FData
              (if (1 <=? i)%nat then (i - 1)%nat else 0%nat)
              (if (i + 2 <? length FData)%nat then (i + 2)%nat else length FData)
              (if (1 <=? j)%nat then (j - 1)%nat else 0%nat)
              (if (j + 2 <? cols)%nat then (j + 2)%nat else cols))
    as [[ZStack Window] Hcollect].
  { intros m n Hm Hn. eapply rectangular_in_bounds; [done|lia..]. }
  rewrite Hcollect. cbn [mbind option_bind].
  apply collect_spec in Hcollect as [Hzero Hlen].
  destruct (median_total Window) as [MedValue ->]; [lia|].
  cbn [mbind option_bind].
  apply replace_total. eapply Forall_impl; [done|].
  intros ZS (v & Hv & _). by eexists.
Qed.

(** ** The whole array *)

Lemma FilterData_preserves (Data FData : Array) :
  FilterData Data = Some FData → preserves Data FData.
Proof.
  unfold CsvInOut.FilterData, for_loop. intros H.
  apply (for_range_inv _ (λ _ a, preserves Data a)) in H;
    [done|apply preserves_refl|].
  clear H. intros i a a' _ Ha H.
  destruct (a !! i) as [row|]; simplify_eq/=.
  apply (for_range_inv _ (λ _ b, preserves Data b)) in H; [done..|].
  clear H. intros j b b' _ Hb H.
  eapply preserves_trans; [done|]. by eapply filter_cell_preserves.
Qed.

Lemma FilterData_total (cols : nat) (Data : Array) :
  rectangular cols Data →
  (2 ≤ length Data ∨ 2 ≤ cols)%nat →
  is_Some (FilterData Data).
Proof.
  intros Hrect Hsize. unfold CsvInOut.FilterData, for_loop.
  loop_total (λ (_ : nat) (a : Array), same_shape Data a) Hrows.
  destruct Hrows as (a & -> & _); [done| |done].
  intros i a Hi Ha.
  pose proof (same_shape_length _ _ Ha) as Hrows.
  pose proof (same_shape_rectangular _ _ cols Ha Hrect) as Hrect_a.
  destruct (lookup_lt_is_Some_2 a i) as [row Hrow]; [lia|].
  rewrite Hrow. simpl.
  assert (length row = cols) as Hcols.
  { unfold rectangular in Hrect_a. rewrite Forall_lookup in Hrect_a. by eapply Hrect_a. }
  apply (for_range_total _ (λ _ b, same_shape Data b)); [done|].
  intros j b Hj Hb.
  pose proof (same_shape_length _ _ Hb) as Hrows_b.
  destruct (filter_cell_total cols i j b) as [b' Hb']; [|lia..|].
  { by eapply same_shape_rectangular. }
  exists b'. split; [done|].
  eapply same_shape_trans; [done|]. by eapply filter_cell_preserves.
Qed.

Lemma same_shape_out_of_bounds (a b : Array) (m n : nat) :
  same_shape a b → at2 a m n = None → at2 b m n = None.
Proof.
  intros Hshape Ha. destruct (at2 b m n) as [v|] eqn:Hb; [|done].
  destruct (same_shape_in_bounds b a m n) as [v' Hv']; [done|by eexists|].
  congruence.
Qed.

(** C9.  [FilterData] leaves alone every cell that holds a value other
    than zero.  On a rectangular array of at least two cells the
    function returns an array; and whenever it returns one, the array
    has as many rows as [Data] and as many cells in each row, a cell
    that is not zero in [Data] has the same value in it, and a cell that
    differs from [Data] was zero in [Data]. *)
Theorem FilterData_keeps_nonzero (cols : nat) (Data : Array) :
  (rectangular cols Data → (2 ≤ length Data ∨ 2 ≤ cols)%nat →
   is_Some (FilterData Data))
  ∧ ∀ FData,
      FilterData Data = Some FData →
      length FData = length Data
      ∧ (∀ m, length <$> FData !! m = length <$> Data !! m)
      ∧ (∀ m n v, at2 Data m n = Some v → feq v (of_int 0) = false →
                  at2 FData m n = Some v)
      ∧ (∀ m n, at2 FData m n ≠ at2 Data m n →
                ∃ v, at2 Data m n = Some v ∧ feq v (of_int 0) = true).
Proof.
  split; [apply FilterData_total|].
  intros FData [Hshape Hsame]%FilterData_preserves. split_and!.
  - symmetry. by apply same_shape_length.
  - intros m. unfold same_shape in Hshape.
    by rewrite <-!list_lookup_fmap, Hshape.
  - done.
  - intros m n Hdiff. destruct (at2 Data m n) as [v|] eqn:Hv.
    + exists v. split; [done|].
      destruct (feq v (of_int 0)) eqn:Hz; [done|].
      by rewrite (Hsame m n v) in Hdiff.
    + by rewrite (same_shape_out_of_bounds Data FData m n) in Hdiff.
Qed.

End FilterProofs.

Lemma FilterData_keeps_nonzero_witness :
  ∃ FData,
    FilterData_double (matrix [[1; 2; 3]; [4; 0; 6]; [7; 8; 9]]) = Some FData
    ∧ at2 FData 2 1 = Some (double_of_int 8).
Proof.
  destruct (FilterData_keeps_nonzero
              PrimFloat.eqb PrimFloat.ltb PrimFloat.add PrimFloat.div double_of_int
              3 (matrix [[1; 2; 3]; [4; 0; 6]; [7; 8; 9]]))
    as [Hreturns Hframe].
  destruct Hreturns as [FData HFData].
  - repeat constructor.
  - left. simpl. lia.
  - exists FData. split; [exact HFData|].
    destruct (Hframe FData HFData) as (_ & _ & Hkept & _).
    apply Hkept; reflexivity.
Defined.

(** What the function returns on that array: the zero in the middle has
    become the median the code computes for the window of cell (0, 0). *)
Example FilterData_3x3 :
  FilterData_double (matrix [[1; 2; 3]; [4; 0; 6]; [7; 8; 9]])
  = Some [[double_of_int 1; double_of_int 2; double_of_int 3];
          [double_of_int 4; PrimFloat.div (double_of_int 3) (double_of_int 2);
           double_of_int 6];
          [double_of_int 7; double_of_int 8; double_of_int 9]].
Proof. vm_compute. reflexivity. Qed.

(** On an array of one cell the selection loop indexes [Window] past
    its end, and on a ragged array the window indexes a shorter row past
    its end: the behaviour is undefined. *)
Example FilterData_single_cell : FilterData_double (matrix [[5]]) = None.
Proof. vm_compute. reflexivity. Qed.

Example FilterData_ragged : FilterData_double (matrix [[1; 2]; [3]]) = None.
Proof. vm_compute. reflexivity. Qed.

(** * More on the word-frequency counter *)

Import WordsFrequencyMore.

(** ** What [ss >> word] takes from the stream *)

Lemma skipws_split (ss : list ascii) :
  ∃ ws, forallb isspace ws = true ∧ ss = ws ++ skipws ss.
Proof.
  induction ss as [|c r (ws & Hws & Hr)]; simpl.
  - by exists [].
  - destruct (isspace c) eqn:Ec.
    + exists (c :: ws). simpl. rewrite Ec, Hws. split; [done|]. by f_equal.
    + by exists [].
Qed.

Lemma get_word_split (ss : list ascii) :
  ss = (get_word ss).1 ++ (get_word ss).2
  ∧ forallb (λ c, negb (isspace c)) (get_word ss).1 = true
  ∧ match (get_word ss).2 with
    | [] => True
    | c :: _ => isspace c = true
    end.
Proof.
  induction ss as [|c r (Hr & Hw & Hrest)]; simpl; [done|].
  destruct (isspace c) eqn:Ec; simpl; [done|].
  destruct (get_word r) as [w r']. simpl in *. rewrite Ec, Hw.
  split; [by f_equal|done].
Qed.

(** X1.  A successful [ss >> word] cuts the stream in three: the
    whitespace it skips, the word, and the rest.  The word is not empty
    and has no whitespace in it, and the rest is empty or begins with the
    whitespace that ended the word: no character is lost or read
    twice. *)
Theorem extract_splits_stream (ss word rest : list ascii) :
  extract ss = Some (word, rest) →
  ∃ ws,
    ss = ws ++ word ++ rest
    ∧ forallb isspace ws = true
    ∧ word ≠ []
    ∧ forallb (λ c, negb (isspace c)) word = true
    ∧ match rest with
      | [] => True
      | c :: _ => isspace c = true
      end.
Proof.
  unfold extract. destruct (skipws_split ss) as (ws & Hws & Hss).
  destruct (skipws ss) as [|c r] eqn:E; [done|].
  pose proof (skipws_head _ _ _ E) as Hc.
  destruct (get_word_split (c :: r)) as (Hsplit & Hword & Hrest).
  intros H. destruct (get_word (c :: r)) as [w r'] eqn:Hg. simplify_eq/=.
  exists ws. split_and!; try done.
  - by rewrite Hsplit.
  - rewrite Hc in Hg. destruct (get_word r). by simplify_eq.
Qed.

Lemma extract_splits_stream_witness :
  ∃ ws,
    str "  to be" = ws ++ str "to" ++ str " be"
    ∧ forallb isspace ws = true
    ∧ str "to" ≠ []
    ∧ forallb (λ c, negb (isspace c)) (str "to") = true
    ∧ isspace " " = true.
Proof.
  apply (extract_splits_stream (str "  to be") (str "to") (str " be")).
  reflexivity.
Defined.

(** ** The keys of the map *)

Lemma isupper_tolower (c : ascii) : isupper (tolower c) = false.
Proof.
  unfold tolower. destruct (isupper c) eqn:Hup; [|done].
  unfold isupper in *. apply andb_true_iff in Hup as [H1 H2].
  apply N.leb_le in H1, H2.
  assert (code (ascii_of_N (code c + 32)) = (code c + 32)%N) as ->.
  { unfold code. apply N_ascii_embedding. fold (code c). lia. }
  apply outside_range. lia.
Qed.

Lemma normalize_is_clean (tok : list ascii) : is_clean (normalize tok) = true.
Proof.
  unfold is_clean, normalize, lower, strip.
  induction tok as [|c tok IH]; simpl; [done|].
  destruct (ispunct c) eqn:Hc; simpl; [done|].
  by rewrite ispunct_tolower, Hc, isupper_tolower, IH.
Qed.

Lemma occurrences_token (w text : list ascii) :
  occurrences w text ≠ 0%nat → ∃ tok, tok ∈ tokens text ∧ normalize tok = w.
Proof.
  unfold occurrences. intros H.
  destruct (List.filter _ (tokens text)) as [|tok l] eqn:E; [done|].
  assert (List.In tok (List.filter (λ t, bool_decide (normalize t = w)) (tokens text)))
    as [Hin Hw]%List.filter_In by (rewrite E; by left).
  exists tok. split; [by apply list_elem_of_In|by apply bool_decide_eq_true in Hw].
Qed.

(** X2.  Every key of the map that [parse] builds from the empty map is
    free of punctuation and of upper-case letters, and is what some
    token of the text is cleaned to. *)
Theorem parse_keys_are_clean (text w : list ascii) :
  is_Some (parse ∅ text !! w) →
  is_clean w = true ∧ ∃ tok, tok ∈ tokens text ∧ clean tok = w.
Proof.
  rewrite lookup_parse. intros Hkey.
  destruct (Nat.eqb_spec (occurrences w text) 0) as [|Hocc].
  { by destruct Hkey. }
  destruct (occurrences_token w text Hocc) as (tok & Htok & <-).
  split; [apply normalize_is_clean|].
  exists tok. split; [done|apply clean_normalize].
Qed.

Lemma parse_keys_are_clean_witness :
  is_clean (str "dont") = true
  ∧ ∃ tok, tok ∈ tokens (str "Stop! Don't stop.") ∧ clean tok = str "dont".
Proof.
  apply (parse_keys_are_clean (str "Stop! Don't stop.") (str "dont")).
  vm_compute. eauto.
Defined.

(** ** The counts add up *)

Lemma total_count_insert (map : word_map) (w : list ascii) (n : Z) :
  total_count (<[w := n]> map) = total_count map - default 0 (map !! w) + n.
Proof.
  unfold total_count.
  assert (∀ (m : word_map) k v, m !! k = None →
            map_fold (λ _ n sum, n + sum) 0 (<[k := v]> m)
            = v + map_fold (λ _ n sum, n + sum) 0 m) as Hfresh.
  { intros m k v Hk. apply (map_fold_insert_L (λ _ n sum, n + sum)); [|done].
    intros. lia. }
  destruct (map !! w) as [old|] eqn:Hw; simpl.
  - rewrite <-(insert_delete_eq map w n).
    rewrite <-(insert_delete_id map w old) at 2 by done.
    rewrite !Hfresh by apply lookup_delete_eq. lia.
  - rewrite Hfresh by done. lia.
Qed.

Lemma total_count_nonneg (map : word_map) :
  map_Forall (λ _ n, 0 ≤ n) map → 0 ≤ total_count map.
Proof.
  unfold total_count. induction map as [|k v m Hk Hfold IH] using map_first_key_ind.
  - by rewrite map_fold_empty.
  - intros [Hv Hm]%map_Forall_insert; [|done].
    rewrite map_fold_insert_first_key by done. specialize (IH Hm). lia.
Qed.

Lemma count_le_total (map : word_map) (w : list ascii) :
  map_Forall (λ _ n, 0 ≤ n) map → 0 ≤ default 0 (map !! w) ≤ total_count map.
Proof.
  intros Hpos. destruct (map !! w) as [n|] eqn:Hw; simpl.
  - pose proof (Hpos w n Hw) as Hn. split; [done|].
    rewrite <-(insert_delete_id map w n) by done.
    rewrite total_count_insert, lookup_delete_eq. simpl.
    assert (0 ≤ total_count (delete w map)); [|lia].
    apply total_count_nonneg. by apply map_Forall_delete.
  - split; [done|]. by apply total_count_nonneg.
Qed.

Lemma total_count_foldl (ws : list (list ascii)) (map : word_map) :
  map_Forall (λ _ n, 0 ≤ n) map →
  total_count map + Z.of_nat (length ws) ≤ INT_MAX →
  total_count (foldl increment map ws) = total_count map + Z.of_nat (length ws)
  ∧ map_Forall (λ _ n, 0 ≤ n) (foldl increment map ws).
Proof.
  revert map. induction ws as [|w ws IH]; intros map Hpos Hfit; simpl.
  { split; [lia|done]. }
  pose proof (count_le_total map w Hpos) as Hw.
  assert (increment map w = <[w := default 0 (map !! w) + 1]> map) as Hinc.
  { unfold increment. rewrite wrap_int_small; [done|].
    unfold INT_MIN. simpl length in Hfit. lia. }
  assert (total_count (increment map w) = total_count map + 1) as Htotal.
  { rewrite Hinc, total_count_insert. lia. }
  destruct (IH (increment map w)) as [Hsum Hpos'].
  - rewrite Hinc. apply map_Forall_insert_2; [lia|done].
  - rewrite Htotal. simpl length in Hfit. lia.
  - split; [|done]. rewrite Hsum, Htotal. simpl length. lia.
Qed.

(** X3.  No token is lost and none is counted twice: the counts of the
    map that [parse] builds from the empty map add up to the number of
    tokens of the text, as long as that number fits an [int]. *)
Theorem parse_counts_add_up (text : list ascii) :
  Z.of_nat (length (tokens text)) ≤ INT_MAX →
  total_count (parse ∅ text) = Z.of_nat (length (tokens text)).
Proof.
  intros Hfit. rewrite parse_tokens.
  destruct (total_count_foldl (normalize <$> tokens text) ∅) as [-> _].
  - apply map_Forall_empty.
  - unfold total_count. rewrite map_fold_empty, length_fmap. lia.
  - unfold total_count. by rewrite map_fold_empty, length_fmap.
Qed.

Lemma parse_counts_add_up_witness :
  total_count (parse ∅ (str "b a, B! -- c a. b? C")) = 8.
Proof.
  apply (parse_counts_add_up (str "b a, B! -- c a. b? C")).
  vm_compute. discriminate.
Defined.

(** ** Texts in pieces *)

Lemma split_ws_app (a b : list ascii) (c : ascii) (cur : list ascii) :
  isspace c = true →
  split_ws cur (a ++ c :: b) = split_ws cur a ++ tokens b.
Proof.
  intros Hc. revert cur. induction a as [|x a IH]; intros cur; simpl.
  - rewrite Hc. by destruct cur.
  - destruct (isspace x); [|apply IH].
    destruct cur; simpl; by rewrite IH.
Qed.

(** X4.  [parse] adds to the map it is given, so a text can be counted
    in pieces: parsing a first text and then a second one into the same
    map gives the map of the two texts joined by a whitespace
    character. *)
Theorem parse_in_pieces (map : word_map) (a b : list ascii) (c : ascii) :
  isspace c = true →
  parse (parse map a) b = parse map (a ++ c :: b).
Proof.
  intros Hc. rewrite !parse_tokens. unfold tokens at 3.
  by rewrite (split_ws_app a b c [] Hc), fmap_app, foldl_app.
Qed.

Lemma parse_in_pieces_witness :
  parse (parse ∅ (str "one two")) (str "two three")
  = parse ∅ (str "one two" ++ "010"%char :: str "two three").
Proof. apply (parse_in_pieces ∅ (str "one two") (str "two three") "010"%char). reflexivity. Defined.

(** ** Letter case *)

Lemma isspace_tolower (c : ascii) : isspace (tolower c) = isspace c.
Proof.
  unfold tolower, isupper. destruct (_ && _)%N eqn:Hup; [|done].
  apply andb_true_iff in Hup as [H1 H2]. apply N.leb_le in H1, H2.
  unfold isspace.
  assert (code (ascii_of_N (code c + 32)) = (code c + 32)%N) as ->.
  { unfold code. apply N_ascii_embedding. fold (code c). lia. }
  rewrite !outside_range by lia.
  destruct (N.eqb_spec (code c + 32) 32), (N.eqb_spec (code c) 32); try done; lia.
Qed.

Lemma tolower_idemp (c : ascii) : tolower (tolower c) = tolower c.
Proof. unfold tolower at 1. by rewrite isupper_tolower. Qed.

Lemma split_ws_lower (text cur : list ascii) :
  split_ws (lower cur) (lower text) = lower <$> split_ws cur text.
Proof.
  unfold lower. revert cur. induction text as [|c r IH]; intros cur; simpl.
  - destruct cur as [|x cur]; [done|]. simpl. by rewrite <-!map_rev, map_app.
  - pose proof (IH []) as IH0. simpl in IH0.
    rewrite isspace_tolower. destruct (isspace c).
    + destruct cur as [|x cur]; simpl; [done|].
      rewrite IH0. by rewrite <-!map_rev, map_app.
    + apply (IH (c :: cur)).
Qed.

Lemma normalize_lower (tok : list ascii) : normalize (lower tok) = normalize tok.
Proof.
  unfold normalize. rewrite <-lower_strip_comm. unfold lower.
  rewrite List.map_map. apply List.map_ext. intros c. apply tolower_idemp.
Qed.

(** X5.  The counter does not see letter case: a text and the same text
    with every upper-case letter lowered give the same map, from any
    map. *)
Theorem parse_ignores_case (map : word_map) (text : list ascii) :
  parse map (lower text) = parse map text.
Proof.
  rewrite !parse_tokens. f_equal. unfold tokens.
  change (split_ws [] (lower text)) with (split_ws (lower []) (lower text)).
  rewrite split_ws_lower, <-list_fmap_compose.
  apply list_fmap_ext. intros _ tok _. apply normalize_lower.
Qed.

(** ** The printed list *)

Lemma sorted_entries_strict (vec : list entry) (i : nat) (a b : entry) :
  NoDup vec →
  std_sort by_frequency vec !! i = Some a →
  std_sort by_frequency vec !! S i = Some b →
  by_frequency a b = true.
Proof.
  intros Hnodup Ha Hb.
  assert (ordered by_frequency a b) as Hord.
  { eapply Sorted_adjacent; [|done..]. apply std_sort_Sorted, by_frequency_asym. }
  assert (a ≠ b) as Hne.
  { rewrite <-(std_sort_perm by_frequency vec) in Hnodup.
    intros ->. eapply NoDup_lookup in Hnodup; [|exact Ha|exact Hb]. lia. }
  destruct (by_frequency_total a b Hne) as [|Hba]; [done|].
  unfold ordered in Hord. congruence.
Qed.

(** X6.  [main] prints every entry of the map, once, and in a strict
    order: of two lines that follow each other, the first has the larger
    count, or the same count and the smaller word.  So no word is
    printed twice and words of equal frequency come in ascending
    order. *)
Theorem output_lists_each_word_once
    (iterate : word_map → list entry) (fs : filesystem) (text : list ascii) :
  admissible iterate →
  read_file fs test_file = Return text →
  ∃ vec,
    main iterate fs = Return (concat (print_entry <$> vec))
    ∧ vec ≡ₚ map_to_list (parse ∅ text)
    ∧ NoDup vec.*1
    ∧ ∀ i a b, vec !! i = Some a → vec !! S i = Some b →
               b.2 < a.2 ∨ (a.2 = b.2 ∧ string_lt a.1 b.1 = true).
Proof.
  intros Hiter Hread.
  exists (std_sort by_frequency (iterate (parse ∅ text))).
  assert (std_sort by_frequency (iterate (parse ∅ text))
          ≡ₚ map_to_list (parse ∅ text)) as Hperm.
  { by rewrite std_sort_perm, (Hiter _). }
  split_and!.
  - by apply main_read.
  - done.
  - rewrite Hperm. apply NoDup_fst_map_to_list.
  - intros i a b Ha Hb.
    assert (by_frequency a b = true) as Hab.
    { eapply sorted_entries_strict; [|done..].
      rewrite (Hiter _). apply NoDup_map_to_list. }
    unfold by_frequency in Hab.
    destruct (Z.eqb_spec a.2 b.2); simpl in Hab; [by right|].
    left. by apply Z.ltb_lt.
Qed.

Lemma output_lists_each_word_once_witness :
  ∃ vec,
    main map_to_list (one_file test_file (str "b a, B! -- c a. b? C"))
    = Return (concat (print_entry <$> vec))
    ∧ vec ≡ₚ map_to_list (parse ∅ (str "b a, B! -- c a. b? C"))
    ∧ NoDup vec.*1
    ∧ ∀ i a b, vec !! i = Some a → vec !! S i = Some b →
               b.2 < a.2 ∨ (a.2 = b.2 ∧ string_lt a.1 b.1 = true).
Proof.
  apply (output_lists_each_word_once map_to_list
           (one_file test_file (str "b a, B! -- c a. b? C"))
           (str "b a, B! -- c a. b? C")).
  - intros map. reflexivity.
  - vm_compute. reflexivity.
Defined.

(** ** Blank texts *)

Lemma tokens_blank (text : list ascii) : is_blank text = true → tokens text = [].
Proof.
  unfold tokens, is_blank. induction text as [|c r IH]; simpl; [done|].
  intros [Hc Hr]%andb_true_iff. rewrite Hc. by apply IH.
Qed.

(** X7.  A file that is empty or holds whitespace only gives no word:
    [parse] leaves the map as it is and [main] prints nothing. *)
Theorem blank_text_counts_nothing
    (iterate : word_map → list entry) (fs : filesystem)
    (map : word_map) (text : list ascii) :
  admissible iterate →
  is_blank text = true →
  parse map text = map
  ∧ (read_file fs test_file = Return text → main iterate fs = Return []).
Proof.
  intros Hiter Hblank.
  assert (∀ m, parse m text = m) as Hparse.
  { intros m. by rewrite parse_tokens, tokens_blank. }
  split; [done|]. intros Hread.
  rewrite (main_read iterate fs text Hread), Hparse.
  assert (iterate ∅ = []) as ->; [|done].
  apply Permutation_nil_r. by rewrite (Hiter _), map_to_list_empty.
Qed.

Lemma blank_text_counts_nothing_witness :
  parse {[ str "kept" := 1 ]} (str "  ") = {[ str "kept" := 1 ]}
  ∧ main map_to_list (one_file test_file (str "  ")) = Return [].
Proof.
  destruct (blank_text_counts_nothing map_to_list (one_file test_file (str "  "))
              {[ str "kept" := 1 ]} (str "  ")) as [Hparse Hmain].
  - intros map. reflexivity.
  - reflexivity.
  - split; [exact Hparse|]. apply Hmain. vm_compute. reflexivity.
Defined.

(** ** A map that is not empty *)

(** X19.  [parse] on a map that already has counts: the count of a word
    grows by the number of tokens of the text that normalize to it, and an
    entry for a word that the text does not have stays as it is, present
    or not.  The old count is not negative and the new one fits an
    [int]. *)
Theorem parse_adds_to_counts (map : word_map) (text w : list ascii) :
  0 ≤ default 0 (map !! w) →
  default 0 (map !! w) + Z.of_nat (occurrences w text) ≤ INT_MAX →
  parse map text !! w =
  if (occurrences w text =? 0)%nat then map !! w
  else Some (default 0 (map !! w) + Z.of_nat (occurrences w text)).
Proof.
  intros Hold Hfit.
  rewrite parse_tokens, lookup_foldl_increment, count_of_normalize.
  destruct (occurrences w text =? 0)%nat; [done|].
  f_equal. apply wrap_int_small. unfold INT_MIN. lia.
Qed.

Lemma parse_adds_to_counts_witness :
  parse {[ str "the" := 5; str "old" := 1 ]} (str "The cat, the DOG") !! str "the"
  = Some 7
  ∧ parse {[ str "the" := 5; str "old" := 1 ]} (str "The cat, the DOG") !! str "old"
    = Some 1.
Proof.
  split.
  - rewrite (parse_adds_to_counts {[ str "the" := 5; str "old" := 1 ]}
               (str "The cat, the DOG") (str "the"))
      by (vm_compute; discriminate).
    vm_compute. reflexivity.
  - rewrite (parse_adds_to_counts {[ str "the" := 5; str "old" := 1 ]}
               (str "The cat, the DOG") (str "old"))
      by (vm_compute; discriminate).
    vm_compute. reflexivity.
Defined.

(** * More on the two threads *)

(** X8.  Every run of the program ends, and as it should: a schedule
    has at most thirteen steps, [main] is at its end exactly after
    thirteen, and what has been printed by then is the line for the
    value 2; the line for a race is never printed. *)
Theorem every_run_ends (schedule : list actor) (s : state) :
  run schedule init = Some s →
  (length schedule ≤ 13)%nat
  ∧ (main_at s = Exit ↔ length schedule = 13%nat)
  ∧ (out s = []
     ∨ out s = str "2 means that t1 and t2 both updated sequencially :  2"
               ++ WordsFrequency.endl).
Proof.
  intros Hrun.
  pose proof (run_length schedule init s invariant_init Hrun) as Hlen.
  pose proof (invariant_run schedule init s invariant_init Hrun) as Hinv.
  change (steps_left init) with 13%nat in Hlen.
  destruct Hinv as (_ & _ & _ & _ & _ & Hthreads & Hout).
  split_and!.
  - lia.
  - unfold steps_left, threads_at in *. split.
    + intros Hexit. rewrite Hexit in *. destruct Hthreads as [H1 H2].
      destruct (t1 s) as [[[] ?]|]; try done.
      destruct (t2 s) as [[[] ?]|]; try done. simpl in Hlen. lia.
    + intros H13. destruct (main_at s); simpl in Hlen; try lia. done.
  - rewrite Hout. destruct (main_at s); auto.
Qed.

Lemma every_run_ends_witness :
  (13 ≤ 13)%nat
  ∧ (Exit = Exit ↔ 13%nat = 13%nat)
  ∧ (message 2 = []
     ∨ message 2 = str "2 means that t1 and t2 both updated sequencially :  2"
                   ++ WordsFrequency.endl).
Proof.
  apply (every_run_ends
           [Main; T1; Main; T1; T1; T1; T2; T2; Main; T2; T2; Main; Main]
           (State 2 None Exit (Some (Thread Returned 0)) (Some (Thread Returned 1))
                  (message 2))).
  vm_compute. reflexivity.
Defined.

(** * The selection passes of Task 1 *)

Section Selection.

Context {A : Type} (ltb : A → A → bool).

(** The values the comparison is used on, on which it is a strict
    order. *)
Variable dom : A → Prop.
Hypothesis ltb_irrefl : ∀ x, dom x → ltb x x = false.
Hypothesis ltb_trans :
  ∀ x y z, dom x → dom y → dom z →
           ltb x y = true → ltb y z = true → ltb x z = true.

Lemma min_from_least (L : list A) (e m : nat) :
  Forall dom L →
  min_from ltb L e = Some m →
  (e ≤ m)%nat
  ∧ ∀ k wk wm, (e ≤ k)%nat → L !! k = Some wk → L !! m = Some wm →
               ltb wk wm = false.
Proof.
  intros Hdom. rewrite Forall_lookup in Hdom. unfold min_from, for_loop. intros H.
  apply (for_range_inv _
           (λ k min, (e ≤ min < k)%nat
                     ∧ ∀ j wj wm, (e ≤ j < k)%nat → L !! j = Some wj →
                                  L !! min = Some wm → ltb wj wm = false)) in H.
  - destruct H as [Hm Hleast]. split; [lia|].
    intros k wk wm Hk Hwk Hwm. apply (Hleast k); [|done..].
    pose proof (lookup_lt_Some _ _ _ Hwk). lia.
  - split; [lia|]. intros j wj wm Hj Hwj Hwm.
    assert (j = e) as -> by lia. simplify_eq. by eapply ltb_irrefl, Hdom.
  - clear H. intros k min min' Hk [Hmin Hleast] Hbody.
    destruct (L !! k) as [wk|] eqn:Hwk; simplify_eq/=.
    destruct (L !! min) as [wmin|] eqn:Hwmin; simplify_eq/=.
    destruct (ltb wk wmin) eqn:Hlt.
    + split; [lia|]. intros j wj wm Hj Hwj Hwm.
      assert (wm = wk) as -> by congruence.
      destruct (decide (j = k)) as [->|Hne].
      * assert (wj = wk) as -> by congruence. by eapply ltb_irrefl, Hdom.
      * destruct (ltb wj wk) eqn:Hjk; [|done].
        rewrite <-(Hleast j wj wmin); [|lia|done..].
        symmetry. eapply (ltb_trans wj wk wmin); eauto.
    + split; [lia|]. intros j wj wm Hj Hwj Hwm.
      assert (wm = wmin) as -> by congruence.
      destruct (decide (j = k)) as [->|Hne]; [congruence|].
      apply (Hleast j); [lia|done..].
Qed.

(** One pass swaps the entry at [e] with a least entry from [e] on. *)
Lemma select_swaps_least (e : nat) (L L' : list A) :
  Forall dom L →
  select ltb e L = Some L' →
  ∃ m we wm,
    (e ≤ m)%nat ∧ L !! e = Some we ∧ L !! m = Some wm
    ∧ L' = <[m := we]> (<[e := wm]> L)
    ∧ ∀ k wk, (e ≤ k)%nat → L !! k = Some wk → ltb wk wm = false.
Proof.
  intros Hdom. unfold select. intros H.
  destruct (min_from ltb L e) as [m|] eqn:Hmin; simplify_eq/=.
  destruct (L !! e) as [we|] eqn:Hwe; simplify_eq/=.
  destruct (L !! m) as [wm|] eqn:Hwm; simplify_eq/=.
  destruct (min_from_least L e m Hdom Hmin) as [Hem Hleast].
  exists m, we, wm. split_and!; try done.
  intros k wk Hk Hwk. by eapply Hleast.
Qed.

Lemma swap_lookup (L : list A) (e m j : nat) (we wm wj : A) :
  L !! e = Some we → L !! m = Some wm →
  <[m := we]> (<[e := wm]> L) !! j = Some wj →
  ∃ j', L !! j' = Some wj
        ∧ (j' = j ∧ j ≠ e ∧ j ≠ m ∨ j = m ∧ j' = e ∨ j = e ∧ j ≠ m ∧ j' = m).
Proof.
  intros Hwe Hwm Hj.
  pose proof (lookup_lt_Some _ _ _ Hwe). pose proof (lookup_lt_Some _ _ _ Hwm).
  destruct (decide (j = m)) as [->|Hjm].
  { rewrite list_lookup_insert_eq in Hj by (rewrite length_insert; lia).
    simplify_eq. exists e. split; [done|]. by right; left. }
  rewrite list_lookup_insert_ne in Hj by done.
  destruct (decide (j = e)) as [->|Hje].
  { rewrite list_lookup_insert_eq in Hj by lia. simplify_eq.
    exists m. split; [done|]. by right; right. }
  rewrite list_lookup_insert_ne in Hj by done.
  exists j. split; [done|]. by left.
Qed.

(** After [n] passes the vector is the old one rearranged, and each of
    its first [n] entries is not above any entry after it. *)
Lemma passes_sorted_front (n : nat) (W W' : list A) :
  Forall dom W →
  for_range 0 n (select ltb) W = Some W' →
  W' ≡ₚ W
  ∧ ∀ i j wi wj, (i < n)%nat → (i ≤ j)%nat →
                 W' !! i = Some wi → W' !! j = Some wj → ltb wj wi = false.
Proof.
  intros Hdom H.
  apply (for_range_inv _
           (λ k L, L ≡ₚ W
                   ∧ ∀ i j wi wj, (i < k)%nat → (i ≤ j)%nat →
                                  L !! i = Some wi → L !! j = Some wj →
                                  ltb wj wi = false)) in H; [done| |].
  { split; [done|]. intros. lia. }
  clear H. intros k L L' _ [Hperm Hfront] Hsel.
  assert (Forall dom L) as HdomL by (by rewrite Hperm).
  destruct (select_swaps_least k L L' HdomL Hsel)
    as (m & we & wm & Hkm & Hwe & Hwm & -> & Hleast).
  split.
  { by rewrite (Permutation_insert_swap L k m we wm). }
  intros i j wi wj Hi Hij Hwi Hwj.
  destruct (swap_lookup L k m j we wm wj Hwe Hwm Hwj) as (j' & Hj' & Hcases).
  destruct (swap_lookup L k m i we wm wi Hwe Hwm Hwi) as (i' & Hi' & Hicases).
  destruct (decide (i = k)) as [->|Hik].
  - assert (wi = wm) as ->.
    { destruct Hicases as [(_ & ? & _)|[[-> ->]|(_ & _ & ->)]]; [done|..];
        by simplify_eq. }
    apply (Hleast j'); [lia|done].
  - assert (i' = i) as -> by lia.
    apply (Hfront i j'); [lia|lia|done..].
Qed.

End Selection.

Import Task1Test.

Lemma mid_of_le (Window0 : list Z) : (mid_of Window0 ≤ length Window0)%nat.
Proof.
  unfold mid_of. pose proof (Nat.div_mod_eq (length Window0) 2) as Hdiv.
  pose proof (Nat.mod_upper_bound (length Window0) 2) as Hmod.
  destruct (Nat.eqb_spec (length Window0 mod 2) 0); lia.
Qed.

(** X9.  The loop of test.cpp never indexes the vector past its end, and
    it does what its comment says, "order elements (only half of them)":
    the vector it leaves is the old one rearranged, its first [mid]
    entries ([mid] is half the size, rounded up) are in ascending order
    and none of them is above an entry further on.  This is what [main]
    prints after [mid]. *)
Theorem order_half_orders_front (Window0 : list Z) :
  ∃ Window,
    order_half Window0 = Some Window
    ∧ Window ≡ₚ Window0
    ∧ (∀ i j wi wj, (i < mid_of Window0)%nat → (i ≤ j)%nat →
                    Window !! i = Some wi → Window !! j = Some wj → wi ≤ wj)
    ∧ main_on Window0
      = Some (WordsFrequency.show_int (Z.of_nat (mid_of Window0))
              ++ WordsFrequency.endl
              ++ concat ((λ i, WordsFrequency.show_int i ++ str " ") <$> Window)
              ++ WordsFrequency.endl).
Proof.
  pose proof (mid_of_le Window0) as Hmid.
  destruct (for_range_total (select Z.ltb)
              (λ _ W, length W = length Window0) 0 (mid_of Window0 - 0) Window0)
    as (Window & Hpasses & _); [done| |].
  { intros e W He HW.
    destruct (select_total Z.ltb e W) as (W' & -> & HW'); [lia|].
    exists W'. split; [done|congruence]. }
  exists Window.
  destruct (passes_sorted_front Z.ltb (λ _, True)) with
      (n := (mid_of Window0 - 0)%nat) (W := Window0) (W' := Window)
    as [Hperm Hfront].
  - intros x _. apply Z.ltb_irrefl.
  - intros x y z _ _ _. rewrite !Z.ltb_lt. lia.
  - by apply Forall_true.
  - done.
  - split_and!; [done|done| |].
    + intros i j wi wj Hi Hij Hwi Hwj. apply Z.ltb_ge.
      apply (Hfront i j); [lia|done..].
    + unfold main_on, order_half, for_loop. by rewrite Hpasses.
Qed.

(** What test.cpp prints. *)
Example test_cpp_output :
  Task1Test.main = Some (str "5" ++ WordsFrequency.endl
                         ++ str "0 1 4 5 7 12 10 8 99 " ++ WordsFrequency.endl).
Proof. vm_compute. reflexivity. Qed.

Section Median.

Context {double : Type}.
Variables (feq flt : double → double → bool).
Variables (fadd fdiv : double → double → double).
Variable of_int : Z → double.

Local Abbreviation median := (median flt fadd fdiv of_int).
Local Abbreviation FilterData := (FilterData feq flt fadd fdiv of_int).

(** X10.  The value that [FilterData] writes over the zeros of a
    window.  Where [<] is a strict order on the values of the window
    (it is on all numbers that are not NaN), the passes leave the
    window rearranged with its entries up to index [mid] = (size + 1) / 2
    in ascending order and not above any later entry.  For a window of
    even size the value is the half sum of the two entries in the middle
    of that order, the median; for a window of odd size it is the entry
    at [mid], which is one place above the middle (of three values, the
    largest). *)
Theorem median_is_entry_at_mid (Window : list double) (MedValue : double) :
  (∀ x, x ∈ Window → flt x x = false) →
  (∀ x y z, x ∈ Window → y ∈ Window → z ∈ Window →
            flt x y = true → flt y z = true → flt x z = true) →
  median Window = Some MedValue →
  let mid := ((length Window + 1) / 2)%nat in
  ∃ Sorted,
    Sorted ≡ₚ Window
    ∧ (∀ i j wi wj, (i ≤ mid)%nat → (i ≤ j)%nat →
                    Sorted !! i = Some wi → Sorted !! j = Some wj →
                    flt wj wi = false)
    ∧ if Nat.even (length Window)
      then ∃ a b, Sorted !! (mid - 1)%nat = Some a ∧ Sorted !! mid = Some b
                  ∧ MedValue = fdiv (fadd a b) (of_int 2)
      else Sorted !! mid = Some MedValue.
Proof.
  intros Hirrefl Htrans H mid. unfold CsvInOut.median, for_loop in H.
  fold mid in H.
  destruct (for_range 0 (S mid - 0) (select flt) Window) as [W|] eqn:Hpasses;
    [|done].
  cbn [mbind option_bind] in H.
  destruct (passes_sorted_front flt (λ x, x ∈ Window) Hirrefl Htrans
              (S mid - 0) Window W) as [Hperm Hfront]; [|done|].
  { by apply Forall_forall. }
  exists W. split_and!; [done| |].
  - intros i j wi wj Hi. apply Hfront. lia.
  - assert (length W = length Window) as Hlen by (by rewrite Hperm).
    rewrite Hlen in H.
    destruct (Nat.eqb_spec (length Window mod 2) 0) as [Heven|Hodd];
      cbn [negb] in H.
    + assert (Nat.even (length Window) = true) as ->.
      { apply Nat.even_spec. exists (length Window / 2)%nat.
        pose proof (Nat.div_mod_eq (length Window) 2). lia. }
      destruct (W !! (mid - 1)%nat) as [a|]; [|done].
      destruct (W !! mid) as [b|]; [|done].
      cbn [mbind option_bind] in H. injection H as <-. eauto.
    + assert (Nat.even (length Window) = false) as ->; [|done].
      apply not_true_is_false. intros [k Hk]%Nat.even_spec.
      apply Hodd. rewrite Hk, Nat.mul_comm. apply Nat.Div0.mod_mul.
Qed.

(** X11.  An array without a zero comes back as it is (a rectangular
    array of at least two cells, on which the function is defined). *)
Theorem FilterData_without_zero (cols : nat) (Data : list (list double)) :
  rectangular cols Data →
  (2 ≤ length Data ∨ 2 ≤ cols)%nat →
  (∀ m n v, at2 Data m n = Some v → feq v (of_int 0) = false) →
  FilterData Data = Some Data.
Proof.
  intros Hrect Hsize Hnonzero.
  destruct (FilterData_total feq flt fadd fdiv of_int cols Data Hrect Hsize)
    as [FData HF].
  rewrite HF. f_equal.
  apply FilterData_preserves in HF as [Hshape Hkept].
  apply list_eq. intros m.
  destruct (Data !! m) as [row|] eqn:Hrow.
  - destruct (same_shape_row Data FData m row Hshape Hrow) as (row' & Hrow' & Hlen).
    rewrite Hrow'. f_equal. apply list_eq. intros n.
    destruct (row !! n) as [v|] eqn:Hv.
    + assert (at2 Data m n = Some v) as Hat by (unfold at2; by rewrite Hrow).
      pose proof (Hkept m n v Hat (Hnonzero m n v Hat)) as Hat'.
      unfold at2 in Hat'. by rewrite Hrow' in Hat'.
    + apply lookup_ge_None. rewrite Hlen. by apply lookup_ge_None.
  - apply lookup_ge_None. rewrite <-(same_shape_length Data FData Hshape).
    by apply lookup_ge_None.
Qed.

End Median.

Ltac in_window :=
  repeat match goal with
         | H : _ ∈ _ :: _ |- _ => apply elem_of_cons in H as [->|H]
         | H : _ ∈ [] |- _ => by apply elem_of_nil in H
         end.

Lemma median_is_entry_at_mid_witness :
  ∃ Sorted,
    Sorted ≡ₚ List.map double_of_int [3; 1; 2]
    ∧ (∀ i j wi wj, (i ≤ 2)%nat → (i ≤ j)%nat →
                    Sorted !! i = Some wi → Sorted !! j = Some wj →
                    PrimFloat.ltb wj wi = false)
    ∧ Sorted !! 2%nat = Some (double_of_int 3).
Proof.
  apply (median_is_entry_at_mid
           PrimFloat.ltb PrimFloat.add PrimFloat.div double_of_int
           (List.map double_of_int [3; 1; 2]) (double_of_int 3)).
  - intros x Hx. simpl in Hx. in_window; reflexivity.
  - intros x y z Hx Hy Hz. simpl in Hx, Hy, Hz.
    in_window; vm_compute; congruence.
  - vm_compute. reflexivity.
Defined.

Lemma FilterData_without_zero_witness :
  FilterData_double (matrix [[1; 2]; [3; 4]]) = Some (matrix [[1; 2]; [3; 4]]).
Proof.
  apply (FilterData_without_zero
           PrimFloat.eqb PrimFloat.ltb PrimFloat.add PrimFloat.div double_of_int
           2 (matrix [[1; 2]; [3; 4]])).
  - repeat constructor.
  - left. simpl. lia.
  - intros [|[|m]] [|[|n]] v; vm_compute; intros [= <-]; reflexivity.
Defined.

(** * Reading and writing the CSV file *)

Import Task1App.

Section CsvProofs.

Context {double : Type}.
Variable stod : list ascii → option double.
Variable show : double → list ascii.

Local Abbreviation read_row := (read_row stod).
Local Abbreviation read_lines := (read_lines stod).
Local Abbreviation ReadData := (ReadData stod).
Local Abbreviation write_row := (write_row show).
Local Abbreviation WriteData := (WriteData show).
Local Abbreviation line_of := (line_of show).
Local Abbreviation reads_back := (reads_back stod show).

Lemma read_row_step (Delim : ascii) (row : list double) (linestream : list ascii) :
  read_row Delim row linestream =
  match getline linestream Delim with
  | None => Some row
  | Some (word, rest) =>
      match stod word with
      | None => None
      | Some v => read_row Delim (row ++ [v]) rest
      end
  end.
Proof.
  rewrite read_row_equation_1. unfold inspect.
  cut (∀ o (e : getline linestream Delim = o),
         read_row_unfold_clause_1 stod Delim row linestream (exist _ o e) =
         match o with
         | None => Some row
         | Some (word, rest) =>
             match stod word with
             | None => None
             | Some v => read_row Delim (row ++ [v]) rest
             end
         end); [intros H; apply H|].
  intros [[word rest]|] e; [|done]. simpl. by destruct (stod word).
Qed.

Lemma read_lines_step (Delim : ascii) (Data : list (list double))
    (InputFile : list ascii) :
  read_lines Delim Data InputFile =
  match getline InputFile newline with
  | None => Some Data
  | Some (line, rest) =>
      match read_row Delim [] line with
      | None => None
      | Some row => read_lines Delim (Data ++ [row]) rest
      end
  end.
Proof.
  rewrite read_lines_equation_1. unfold inspect.
  cut (∀ o (e : getline InputFile newline = o),
         read_lines_unfold_clause_1 stod Delim Data InputFile (exist _ o e) =
         match o with
         | None => Some Data
         | Some (line, rest) =>
             match read_row Delim [] line with
             | None => None
             | Some row => read_lines Delim (Data ++ [row]) rest
             end
         end); [intros H; apply H|].
  intros [[line rest]|] e; [|done]. simpl. by destruct (read_row Delim [] line).
Qed.

(** ** [ReadData] adds to [Data] *)

Lemma read_lines_app (Delim : ascii) (InputFile : list ascii)
    (Data : list (list double)) :
  read_lines Delim Data InputFile = (Data ++.) <$> read_lines Delim [] InputFile.
Proof.
  remember (length InputFile) as n eqn:Hn.
  revert Data InputFile Hn. induction (lt_wf n) as [n _ IH].
  intros Data InputFile ->.
  rewrite (read_lines_step Delim Data), (read_lines_step Delim []).
  destruct (getline InputFile newline) as [[line rest]|] eqn:E; simpl.
  - destruct (read_row Delim [] line) as [row|]; [|done].
    pose proof (getline_shorter _ _ _ _ E) as Hshort.
    rewrite (IH _ Hshort (Data ++ [row]) rest eq_refl).
    rewrite (IH _ Hshort [row] rest eq_refl).
    destruct (read_lines Delim [] rest) as [rows|]; simpl; [|done].
    by rewrite <-app_assoc.
  - by rewrite app_nil_r.
Qed.

(** X12.  [ReadData] never empties the member [Data]: the rows it reads
    are put after the rows that are there, so a second call on the same
    object keeps the rows of the first.  (When the file cannot be
    opened no row is read and [Data] stays as it is.) *)
Theorem ReadData_appends (fs : filesystem) (path : list ascii) (Delim : ascii)
    (Data rows : list (list double)) :
  (ReadData fs path Delim []).2 = Some rows →
  (ReadData fs path Delim Data).2 = Some (Data ++ rows).
Proof.
  unfold Task1App.ReadData. destruct (fs path) as [bytes|]; simpl.
  - intros H. by rewrite read_lines_app, H.
  - intros [= <-]. by rewrite app_nil_r.
Qed.

(** ** What [WriteData] writes, read back *)

Lemma write_row_cons (Delim : ascii) (v : double) (row : list double) :
  row ≠ [] →
  write_row Delim (v :: row) = show v ++ Delim :: write_row Delim row.
Proof.
  intros Hne. unfold Task1App.write_row. rewrite imap_cons.
  assert (0 < length row)%nat as Hlen by (destruct row; [done|simpl; lia]).
  replace (length (v :: row) - 1)%nat with (length row) by (simpl; lia).
  cbn [concat]. cbv zeta.
  destruct (Nat.eqb_spec 0 (length row)) as [|_]; [lia|].
  rewrite <-app_assoc. simpl. do 3 f_equal.
  apply imap_ext. intros j x _. unfold compose. do 2 f_equal.
  destruct (Nat.eqb_spec j (length row - 1)), (Nat.eqb_spec (S j) (length row));
    try done; lia.
Qed.

Lemma write_row_line (Delim : ascii) (row : list double) :
  row ≠ [] → write_row Delim row = line_of Delim row ++ [newline].
Proof.
  induction row as [|v row IH]; [done|]. intros _.
  destruct row as [|v' row'].
  - unfold Task1App.write_row. simpl. by rewrite app_nil_r.
  - rewrite write_row_cons by done. rewrite IH by done.
    cbn [Task1App.line_of]. by rewrite <-app_assoc.
Qed.

Lemma getline_nonempty (s : list ascii) (delim : ascii) :
  s ≠ [] → getline s delim = Some (getline_go delim s).
Proof. by destruct s. Qed.

Lemma getline_go_delim (delim : ascii) (word rest : list ascii) :
  delim ∉ word → getline_go delim (word ++ delim :: rest) = (word, rest).
Proof.
  induction word as [|c word IH]; simpl.
  - by rewrite Ascii.eqb_refl.
  - intros [Hc Hword]%not_elem_of_cons.
    destruct (Ascii.eqb_spec c delim); [congruence|]. by rewrite IH.
Qed.

Lemma getline_go_end (delim : ascii) (word : list ascii) :
  delim ∉ word → getline_go delim word = (word, []).
Proof.
  induction word as [|c word IH]; simpl; [done|].
  intros [Hc Hword]%not_elem_of_cons.
  destruct (Ascii.eqb_spec c delim); [congruence|]. by rewrite IH.
Qed.

Lemma line_of_no_newline (Delim : ascii) (row : list double) :
  Delim ≠ newline → Forall (reads_back Delim) row →
  newline ∉ line_of Delim row.
Proof.
  intros Hd. induction 1 as [|v row (_ & _ & Hnl & _) Hrow IH]; simpl.
  { apply not_elem_of_nil. }
  destruct row as [|v' row']; [done|].
  rewrite elem_of_app, elem_of_cons. intros [?|[?|?]]; [done|done|].
  by apply IH.
Qed.

Lemma read_row_line (Delim : ascii) (row acc : list double) :
  row ≠ [] → Forall (reads_back Delim) row →
  read_row Delim acc (line_of Delim row) = Some (acc ++ row).
Proof.
  intros Hne Hrow. revert acc.
  induction Hrow as [|v row (Hshow & Hdelim & _ & Hstod) Hrow IH]; [done|].
  intros acc. rewrite read_row_step. destruct row as [|v' row'].
  - cbn [Task1App.line_of]. rewrite getline_nonempty by done.
    rewrite getline_go_end by done. rewrite Hstod.
    by rewrite read_row_step.
  - cbn [Task1App.line_of]. rewrite getline_nonempty by (by destruct (show v)).
    rewrite getline_go_delim, Hstod by done.
    rewrite IH by done. by rewrite <-app_assoc.
Qed.

Lemma read_lines_written (Delim : ascii) (data Data : list (list double)) :
  Delim ≠ newline →
  Forall (Forall (reads_back Delim)) data →
  read_lines Delim Data (concat (write_row Delim <$> data))
  = Some (Data ++ List.filter (λ row, negb (bool_decide (row = []))) data).
Proof.
  intros Hd Hdata. revert Data.
  induction Hdata as [|row data Hrow Hdata IH]; intros Data; simpl.
  { rewrite read_lines_step. by rewrite app_nil_r. }
  destruct row as [|v row'] eqn:Hr.
  { simpl. apply IH. }
  rewrite <-Hr in *. assert (row ≠ []) as Hne by (by rewrite Hr).
  rewrite bool_decide_eq_false_2 by done. simpl.
  rewrite write_row_line by done. rewrite <-app_assoc. simpl.
  rewrite read_lines_step.
  rewrite getline_nonempty by (by destruct (line_of Delim row)).
  rewrite getline_go_delim by (by apply line_of_no_newline).
  rewrite read_row_line by done. simpl.
  rewrite IH. by rewrite <-app_assoc.
Qed.

(** X13.  Writing an array and reading the file back.  When the output
    file can be opened, the delimiter is not the newline character, and
    every value is printed as a text that is not empty, holds neither the
    delimiter nor a newline, and that [std::stod] converts back to the
    value, then [ReadData] on the file that [WriteData] has written adds
    the rows of the array to [Data], in order, except the rows without
    cells: for those [WriteData] writes nothing, not even the end of the
    line. *)
Theorem WriteData_ReadData (w : world) (data Data : list (list double))
    (path : list ascii) (Delim : ascii) :
  writable w path = true →
  Delim ≠ newline →
  Forall (Forall (reads_back Delim)) data →
  (ReadData (files (WriteData w data path Delim).1) path Delim Data).2
  = Some (Data ++ List.filter (λ row, negb (bool_decide (row = []))) data).
Proof.
  intros Hw Hd Hdata. unfold Task1App.WriteData, Task1App.ReadData.
  rewrite Hw. simpl. rewrite bool_decide_eq_true_2 by done. simpl.
  by apply read_lines_written.
Qed.

End CsvProofs.

Lemma WriteData_ReadData_witness :
  (ReadData stod_whole
     (files (WriteData show_whole (World (λ _, None) (λ _, true))
                       [[1; -20]; []; [300]] (str "out.csv") ";").1)
     (str "out.csv") ";" []).2
  = Some [[1; -20]; [300]].
Proof.
  apply (WriteData_ReadData stod_whole show_whole (World (λ _, None) (λ _, true))
           [[1; -20]; []; [300]] [] (str "out.csv") ";").
  - reflexivity.
  - discriminate.
  - repeat constructor;
      first [discriminate | apply (bool_decide_unpack _); vm_compute; exact I].
Defined.

Lemma ReadData_appends_witness :
  (ReadData stod_whole (one_file (str "in.csv") (str "1;2" ++ [newline]))
            (str "in.csv") ";" [[7; 8]]).2
  = Some ([[7; 8]] ++ [[1; 2]]).
Proof.
  apply (ReadData_appends stod_whole (one_file (str "in.csv") (str "1;2" ++ [newline]))
           (str "in.csv") ";" [[7; 8]] [[1; 2]]).
  vm_compute. reflexivity.
Defined.

(** * Task1/main.cpp *)

Section Task1Main.

Context {double : Type}.
Variable stod : list ascii → option double.
Variable show : double → list ascii.
Variables (feq flt : double → double → bool).
Variables (fadd fdiv : double → double → double).
Variable of_int : Z → double.

Local Abbreviation ReadData := (ReadData stod).
Local Abbreviation write_row := (write_row show).
Local Abbreviation main := (Task1App.main stod show feq flt fadd fdiv of_int).

(** X15.  When the input file cannot be opened, [main] goes on with
    the empty array: it says so, empties the output file all the same
    (if it can open it) and exits with [EXIT_SUCCESS]. *)
Theorem main_unreadable_input (w : world) (prog input output : list ascii) :
  files w input = None →
  main w [prog; input; output]
  = Exits EXIT_SUCCESS
          (str "'OK' Arguments provided." ++ [newline]
           ++ str "Error opening Input file." ++ [newline]
           ++ if writable w output
              then str "Writing to output file." ++ [newline]
              else str "Error in opening output file or in creating it.")
          (if writable w output then put_file w output [] else w).
Proof.
  intros Hin. unfold Task1App.main, Task1App.ReadData, Task1App.WriteData.
  simpl. rewrite Hin. simpl. by destruct (writable w output).
Qed.

(** X16.  The ways [main] exits.  With another number of arguments
    than two it exits with [EXIT_FAILURE] and leaves the files alone.
    Otherwise the exit is [EXIT_SUCCESS], also when the output file
    could not be opened; the only file that can have changed is the
    output file, and what it holds are the rows of an array that has the
    shape of the array read from the input and the same value in every
    cell that was not zero. *)
Theorem main_exits (w w' : world) (argv : list (list ascii)) (code : Z)
    (stdout : list ascii) :
  main w argv = Exits code stdout w' →
  (length argv ≠ 3%nat ∧ code = EXIT_FAILURE ∧ w' = w)
  ∨ ∃ prog input output Data FData,
      argv = [prog; input; output]
      ∧ code = EXIT_SUCCESS
      ∧ (ReadData (files w) input ";" []).2 = Some Data
      ∧ preserves feq of_int Data FData
      ∧ w' = if writable w output
             then put_file w output (concat (write_row ";" <$> FData))
             else w.
Proof.
  unfold Task1App.main. destruct (Nat.eqb_spec (length argv) 3) as [Hlen|Hlen].
  - destruct argv as [|prog [|input [|output [|]]]]; try done. simpl.
    destruct (ReadData (files w) input ";" []) as [printed [Data|]] eqn:Hread;
      [|done].
    destruct (FilterData feq flt fadd fdiv of_int Data) as [FData|] eqn:HF;
      [|done].
    unfold Task1App.WriteData.
    intros H. right. exists prog, input, output, Data, FData.
    assert (code = EXIT_SUCCESS
            ∧ w' = if writable w output
                   then put_file w output (concat (write_row ";" <$> FData))
                   else w) as [-> ->].
    { destruct (writable w output); by injection H as <- _ <-. }
    split_and!; [done|done|by rewrite Hread|by eapply FilterData_preserves|done].
  - intros [= <- _ <-]. by left.
Qed.

End Task1Main.

Lemma main_unreadable_input_witness :
  ∃ w', whole_main (World (one_file (str "out.csv") (str "old")) (λ _, true))
                   [str "Task1App"; str "in.csv"; str "out.csv"]
        = Exits 0 (str "'OK' Arguments provided." ++ [newline]
                   ++ str "Error opening Input file." ++ [newline]
                   ++ str "Writing to output file." ++ [newline]) w'
        ∧ files w' (str "out.csv") = Some [].
Proof.
  eexists. split.
  - apply (main_unreadable_input stod_whole show_whole Z.eqb Z.ltb Z.add Z.div (λ z, z)
             (World (one_file (str "out.csv") (str "old")) (λ _, true))
             (str "Task1App") (str "in.csv") (str "out.csv")).
    reflexivity.
  - reflexivity.
Defined.

Lemma main_exits_witness :
  ∃ Data FData,
    (ReadData stod_whole (one_file (str "in.csv") (str "4;0" ++ [newline]))
              (str "in.csv") ";" []).2 = Some Data
    ∧ preserves Z.eqb (λ z, z) Data FData
    ∧ Some (str "4;2" ++ [newline])
      = Some (concat (write_row show_whole ";" <$> FData)).
Proof.
  destruct (main_exits stod_whole show_whole Z.eqb Z.ltb Z.add Z.div (λ z, z)
              (World (one_file (str "in.csv") (str "4;0" ++ [newline])) (λ _, true))
              (put_file
                 (World (one_file (str "in.csv") (str "4;0" ++ [newline])) (λ _, true))
                 (str "out.csv") (str "4;2" ++ [newline]))
              [str "Task1App"; str "in.csv"; str "out.csv"]
              0
              (str "'OK' Arguments provided." ++ [newline]
               ++ str "Input file is opened." ++ [newline]
               ++ str "Writing to output file." ++ [newline]))
    as [(Hlen & _)|(prog & input & output & Data & FData & Hargv & _ & Hread & Hkept & Hw)].
  - vm_compute. reflexivity.
  - by destruct Hlen.
  - injection Hargv as <- <- <-. exists Data, FData. split_and!; [done..|].
    exact (f_equal (λ w, files w (str "out.csv")) Hw).
Defined.

(** * Where [FilterData] is defined *)

Section Visits.

Context {S : Type} (body : nat → S → option S).

(** A loop that ends has run its body, with success, at every index. *)
Lemma for_range_visits (P : nat → S → Prop) (first count : nat) (s s' : S) :
  for_range first count body s = Some s' →
  P first s →
  (∀ i s s', (first ≤ i < first + count)%nat → P i s → body i s = Some s' →
             P (Datatypes.S i) s') →
  ∀ k, (first ≤ k < first + count)%nat →
       ∃ sk sk', P k sk ∧ body k sk = Some sk'.
Proof.
  revert first s. induction count as [|n IH]; intros first s Hloop Hs Hbody k Hk.
  { lia. }
  simpl in Hloop. destruct (body first s) as [s1|] eqn:E; [|done].
  simpl in Hloop. destruct (decide (k = first)) as [->|Hne]; [by eauto|].
  apply (IH (Datatypes.S first) s1); [done| | |lia].
  - apply (Hbody first s); [lia|done..].
  - intros i s0 s0' Hi. apply Hbody. lia.
Qed.

End Visits.

Section Defined.

Context {double : Type}.
Variables (feq flt : double → double → bool).
Variables (fadd fdiv : double → double → double).
Variable of_int : Z → double.

Local Abbreviation collect := (collect feq of_int).
Local Abbreviation median := (median flt fadd fdiv of_int).
Local Abbreviation filter_cell := (filter_cell feq flt fadd fdiv of_int).
Local Abbreviation FilterData := (FilterData feq flt fadd fdiv of_int).

Lemma collect_reads (FData : list (list double)) (MinM MaxM MinN MaxN : nat)
    (st : list (nat * nat) * list double) (m n : nat) :
  collect FData MinM MaxM MinN MaxN = Some st →
  (MinM ≤ m < MaxM)%nat → (MinN ≤ n < MaxN)%nat →
  is_Some (at2 FData m n).
Proof.
  unfold CsvInOut.collect, for_loop. intros Hrows Hm Hn.
  eapply (for_range_visits _ (λ _ _, True)) with (k := m) in Hrows
      as (st1 & st1' & _ & Hcols); [|done|done|lia].
  unfold for_loop in Hcols.
  eapply (for_range_visits _ (λ _ _, True)) with (k := n) in Hcols
      as ([ZS W] & st2' & _ & Hcell); [|done|done|lia].
  destruct (at2 FData m n); [by eexists|done].
Qed.

(** The window of a cell lies inside the array, or the cell cannot be
    filtered. *)
Lemma filter_cell_reads (i j : nat) (FData FData' : list (list double))
    (row : list double) (m n : nat) :
  filter_cell i j FData = Some FData' →
  FData !! i = Some row →
  (i - 1 ≤ m)%nat → (m < i + 2)%nat → (m < length FData)%nat →
  (j - 1 ≤ n)%nat → (n < j + 2)%nat → (n < length row)%nat →
  is_Some (at2 FData m n).
Proof.
  unfold CsvInOut.filter_cell. intros H Hrow Hm1 Hm2 Hm3 Hn1 Hn2 Hn3.
  rewrite Hrow in H. cbn [mbind option_bind] in H. cbv zeta in H.
  destruct (collect FData _ _ _ _) as [st|] eqn:Hcollect; [|done].
  eapply collect_reads; [done|..].
  - destruct (Nat.leb_spec 1 i), (Nat.ltb_spec (i + 2) (length FData)); lia.
  - destruct (Nat.leb_spec 1 j), (Nat.ltb_spec (j + 2) (length row)); lia.
Qed.

Lemma filter_cell_same_shape (i j : nat) (FData FData' : list (list double)) :
  filter_cell i j FData = Some FData' → same_shape FData FData'.
Proof. intros H. by apply filter_cell_preserves in H as [? _]. Qed.

(** When [FilterData] returns, it has filtered every cell, each time on
    an array of the shape of [Data]. *)
Lemma FilterData_visits (Data FData' : list (list double)) (i j : nat)
    (row : list double) :
  FilterData Data = Some FData' →
  Data !! i = Some row → (j < length row)%nat →
  ∃ FData FData1, same_shape Data FData ∧ filter_cell i j FData = Some FData1.
Proof.
  unfold CsvInOut.FilterData, for_loop. intros Hloop Hrow Hj.
  pose proof (lookup_lt_Some _ _ _ Hrow) as Hi.
  assert (∀ k a a',
            same_shape Data a →
            (a !! k ≫= λ r, for_range 0 (length r - 0) (λ j, filter_cell k j) a)
            = Some a' →
            same_shape Data a') as Hpres.
  { intros k a a' Ha H. destruct (a !! k) as [r|]; [|done].
    cbn [mbind option_bind] in H.
    apply (for_range_inv _ (λ _ b, same_shape Data b)) in H; [done..|].
    intros j0 b b' _ Hb Hcell. eapply same_shape_trans; [done|].
    by eapply filter_cell_same_shape. }
  eapply (for_range_visits _ (λ _ a, same_shape Data a)) with (k := i) in Hloop
      as (a & a' & Ha & Hbody); [|done|by eauto|lia].
  destruct (same_shape_row Data a i row Ha Hrow) as (r & Hr & Hlen).
  rewrite Hr in Hbody. cbn [mbind option_bind] in Hbody.
  eapply (for_range_visits _ (λ _ b, same_shape Data b)) with (k := j) in Hbody
      as (b & b' & Hb & Hcell); [by eauto|done| |lia].
  intros j0 b0 b0' _ Hb0 Hcell0. eapply same_shape_trans; [done|].
  by eapply filter_cell_same_shape.
Qed.

Lemma FilterData_neighbour_rows (Data FData' : list (list double)) (i : nat)
    (row1 row2 : list double) :
  FilterData Data = Some FData' →
  Data !! i = Some row1 → Data !! S i = Some row2 →
  length row1 = length row2.
Proof.
  intros HF H1 H2.
  pose proof (lookup_lt_Some _ _ _ H2) as Hi.
  destruct (Nat.lt_trichotomy (length row1) (length row2)) as [Hlt|[?|Hgt]];
    [|done|]; exfalso.
  - (* the last cell of the longer row [S i] looks at row [i] *)
    destruct (FilterData_visits Data FData' (S i) (length row2 - 1) row2)
      as (a & a' & Ha & Hcell); [done|done|lia|].
    destruct (same_shape_row Data a (S i) row2 Ha H2) as (r2 & Hr2 & Hlen2).
    pose proof (same_shape_length _ _ Ha) as Hrows.
    destruct (filter_cell_reads _ _ _ _ r2 i (length row2 - 1) Hcell Hr2)
      as [v Hv]; [lia..|].
    assert (is_Some (at2 Data i (length row2 - 1))) as [v' Hv'].
    { apply (same_shape_in_bounds a Data); [done|by eexists]. }
    unfold at2 in Hv'. rewrite H1 in Hv'. simpl in Hv'.
    apply lookup_lt_Some in Hv'. lia.
  - (* the last cell of the longer row [i] looks at row [S i] *)
    destruct (FilterData_visits Data FData' i (length row1 - 1) row1)
      as (a & a' & Ha & Hcell); [done|done|lia|].
    destruct (same_shape_row Data a i row1 Ha H1) as (r1 & Hr1 & Hlen1).
    pose proof (same_shape_length _ _ Ha) as Hrows.
    destruct (filter_cell_reads _ _ _ _ r1 (S i) (length row1 - 1) Hcell Hr1)
      as [v Hv]; [lia..|].
    assert (is_Some (at2 Data (S i) (length row1 - 1))) as [v' Hv'].
    { apply (same_shape_in_bounds a Data); [done|by eexists]. }
    unfold at2 in Hv'. rewrite H2 in Hv'. simpl in Hv'.
    apply lookup_lt_Some in Hv'. lia.
Qed.

Lemma neighbours_rectangular (Data : list (list double)) :
  (∀ i row1 row2, Data !! i = Some row1 → Data !! S i = Some row2 →
                  length row1 = length row2) →
  ∃ cols, rectangular cols Data.
Proof.
  unfold rectangular. induction Data as [|row Data IH]; intros Hadj.
  { by exists 0%nat. }
  exists (length row). constructor; [done|].
  destruct Data as [|row' Data']; [done|].
  destruct IH as [cols Hcols].
  { intros i r1 r2 H1 H2. by apply (Hadj (S i)). }
  assert (cols = length row) as <-; [|done].
  apply Forall_cons in Hcols as [<- _]. symmetry. by apply (Hadj 0%nat).
Qed.

Lemma filter_single_cell (y : double) : filter_cell 0 0 [[y]] = None.
Proof.
  unfold CsvInOut.filter_cell, CsvInOut.collect. simpl.
  by destruct (feq y (of_int 0)).
Qed.

Lemma FilterData_single_cell_undefined (x : double) : FilterData [[x]] = None.
Proof.
  destruct (FilterData [[x]]) as [FData'|] eqn:HF; [|done].
  destruct (FilterData_visits [[x]] FData' 0 0 [x] HF) as (a & a' & Ha & Hcell);
    [done|simpl; lia|].
  assert (∃ y, a = [[y]]) as [y ->].
  { unfold same_shape in Ha. destruct a as [|[|y []] []]; try done; by exists y. }
  by rewrite filter_single_cell in Hcell.
Qed.

Lemma FilterData_returns_rectangular (Data : list (list double)) :
  is_Some (FilterData Data) →
  (∃ cols, rectangular cols Data) ∧ ¬ (∃ x, Data = [[x]]).
Proof.
  intros [FData' HF]. split.
  - apply neighbours_rectangular. intros i row1 row2.
    by eapply FilterData_neighbour_rows.
  - intros [x ->]. by rewrite FilterData_single_cell_undefined in HF.
Qed.

Lemma FilterData_rectangular_returns (cols : nat) (Data : list (list double)) :
  rectangular cols Data → ¬ (∃ x, Data = [[x]]) → is_Some (FilterData Data).
Proof.
  intros Hrect Hsingle.
  destruct (decide (2 ≤ length Data ∨ 2 ≤ cols)%nat) as [Hsize|Hsmall].
  { by eapply FilterData_total. }
  destruct Data as [|row [|row' Data']]; [by eexists| |simpl in Hsmall; lia].
  apply Forall_cons in Hrect as [Hcols _].
  destruct row as [|x [|x' row'']]; [by eexists| |simpl in *; lia].
  destruct Hsingle. by exists x.
Qed.

(** X14.  [FilterData] stays inside its vectors exactly on the
    arrays whose rows all have the same number of cells, the array of a
    single cell excepted: on a ragged array a window reaches past the end
    of the shorter row, and on a single cell the selection loop reaches
    past the end of the window. *)
Theorem FilterData_defined_iff (Data : list (list double)) :
  is_Some (FilterData Data) ↔
  (∃ cols, rectangular cols Data) ∧ ¬ (∃ x, Data = [[x]]).
Proof.
  split.
  - apply FilterData_returns_rectangular.
  - intros [[cols Hrect] Hsingle]. by eapply FilterData_rectangular_returns.
Qed.

End Defined.

Section Task1Undefined.

Context {double : Type}.
Variable stod : list ascii → option double.
Variable show : double → list ascii.
Variables (feq flt : double → double → bool).
Variables (fadd fdiv : double → double → double).
Variable of_int : Z → double.

Local Abbreviation ReadData := (ReadData stod).
Local Abbreviation read_row := (read_row stod).
Local Abbreviation read_lines := (read_lines stod).
Local Abbreviation main := (Task1App.main stod show feq flt fadd fdiv of_int).

Lemma single_cell_dec (Data : list (list double)) :
  (∃ x, Data = [[x]]) ∨ ¬ (∃ x, Data = [[x]]).
Proof.
  destruct Data as [|[|x []] []]; try (right; by intros [? ?]). left. by exists x.
Qed.

(** X17.  [main], called with its two arguments, runs into undefined
    behaviour exactly when the array it has read is ragged (two lines of
    the input have different numbers of fields; a blank line among others
    is enough) or has a single cell. *)
Theorem main_undefined_iff (w : world) (prog input output : list ascii) :
  main w [prog; input; output] = Undefined ↔
  ∃ Data, (ReadData (files w) input ";" []).2 = Some Data
          ∧ (¬ (∃ cols, rectangular cols Data) ∨ ∃ x, Data = [[x]]).
Proof.
  unfold Task1App.main. simpl.
  destruct (ReadData (files w) input ";" []) as [printed [Data|]] eqn:Hread; simpl.
  - destruct (FilterData feq flt fadd fdiv of_int Data) as [FData|] eqn:HF.
    + split.
      * unfold Task1App.WriteData. by destruct (writable w output).
      * intros (Data' & [= <-] & Hbad).
        destruct (FilterData_returns_rectangular feq flt fadd fdiv of_int Data)
          as [Hrect Hsingle]; [by rewrite HF|]. by destruct Hbad.
    + split; [|done]. intros _. exists Data. split; [done|].
      destruct (single_cell_dec Data) as [|Hsingle]; [by right|]. left.
      intros [cols Hrect].
      destruct (FilterData_rectangular_returns feq flt fadd fdiv of_int cols Data)
        as [FData HF']; [done..|]. congruence.
  - split; [done|]. by intros (? & ? & _).
Qed.

(** X18.  How [ReadData] cuts the file.  Every line that ends in a
    newline gives one row, an empty line a row without cells; a last
    line is read also when no newline ends it; and in a line every field
    that ends in the delimiter is converted, while a delimiter at the
    very end of the line adds no field after it. *)
Theorem ReadData_cuts_lines (Delim : ascii) (Data : list (list double))
    (row : list double) (line rest word : list ascii) :
  newline ∉ line → Delim ∉ word →
  read_lines Delim Data (line ++ newline :: rest)
  = (read_row Delim [] line ≫= λ r, read_lines Delim (Data ++ [r]) rest)
  ∧ (line ≠ [] →
     read_lines Delim Data line = (λ r, Data ++ [r]) <$> read_row Delim [] line)
  ∧ read_lines Delim Data [] = Some Data
  ∧ read_row Delim row (word ++ Delim :: rest)
    = (stod word ≫= λ v, read_row Delim (row ++ [v]) rest)
  ∧ read_row Delim row [] = Some row.
Proof.
  intros Hline Hword. split_and!.
  - rewrite read_lines_step.
    rewrite getline_nonempty by (by destruct line).
    rewrite getline_go_delim by done. by destruct (read_row Delim [] line).
  - intros Hne. rewrite read_lines_step, getline_nonempty by done.
    rewrite getline_go_end by done.
    destruct (read_row Delim [] line); [|done]. simpl.
    by rewrite read_lines_step.
  - by rewrite read_lines_step.
  - rewrite read_row_step.
    rewrite getline_nonempty by (by destruct word).
    rewrite getline_go_delim by done. by destruct (stod word).
  - by rewrite read_row_step.
Qed.

End Task1Undefined.

Lemma main_undefined_iff_witness :
  whole_main (World (one_file (str "in.csv")
                       (str "1;2" ++ newline :: newline :: str "3;4" ++ [newline]))
                    (λ _, true))
             [str "Task1App"; str "in.csv"; str "out.csv"]
  = Undefined.
Proof.
  apply (main_undefined_iff stod_whole show_whole Z.eqb Z.ltb Z.add Z.div (λ z, z)).
  exists [[1; 2]; []; [3; 4]]. split; [vm_compute; reflexivity|].
  left. intros [cols Hrect].
  apply Forall_cons in Hrect as [H1 Hrect].
  apply Forall_cons in Hrect as [H2 _]. simpl in *. congruence.
Defined.

Lemma ReadData_cuts_lines_witness :
  read_lines stod_whole ";" [] (str "1;2;" ++ newline :: str "3")
  = (read_row stod_whole ";" [] (str "1;2;")
     ≫= λ r, read_lines stod_whole ";" ([] ++ [r]) (str "3"))
  ∧ read_row stod_whole ";" [] (str "1" ++ ";"%char :: str "2;")
    = (stod_whole (str "1") ≫= λ v, read_row stod_whole ";" ([] ++ [v]) (str "2;")).
Proof.
  destruct (ReadData_cuts_lines stod_whole ";" [] [] (str "1;2;") (str "3") (str "1"))
    as (Hlines & _ & _ & _ & _).
  { apply (bool_decide_unpack _). vm_compute. exact I. }
  { apply (bool_decide_unpack _). vm_compute. exact I. }
  destruct (ReadData_cuts_lines stod_whole ";" [] [] (str "1;2;") (str "2;") (str "1"))
    as (_ & _ & _ & Hfields & _).
  { apply (bool_decide_unpack _). vm_compute. exact I. }
  { apply (bool_decide_unpack _). vm_compute. exact I. }
  split; [exact Hlines|exact Hfields].
Defined.
